(** * Weather Pulse: request orchestration of [App.tsx]

    A shallow embedding of the state, the event handlers, the two fetch
    pipelines and the two replay effects of the [App] component, followed
    by the properties of the orchestration logic.

    Conventions.
    - A JavaScript string is the list of its UTF-16 code units, so that
      [String.prototype.trim] can be written out exactly.
    - A JavaScript number coming from a JSON body is a rational [Q];
      [===] and the comparison of effect dependencies are [Qeq_bool].
    - [useState] cells and the [lastRequest] ref form the record
      [AppState]; what the browser keeps around it (issued requests,
      pending promises, dependency arrays of the effects) forms [World]. *)

From Stdlib Require Import QArith.
From stdpp Require Import base option list gmap strings.

#[local] Set Warnings "-clear-no-such-hyp".

Local Open Scope list_scope.

(** ** Strings *)

Definition jsstring : Type := list N.

(** An ASCII literal of the source as code units. *)
Definition lit (s : string) : jsstring :=
  Ascii.N_of_ascii <$> String.list_ascii_of_string s.

(** Truthiness of a string: only the empty string is falsy. *)
Definition nonEmpty (s : jsstring) : bool :=
  match s with [] => false | _ => true end.

(** Truthiness of [string | undefined]. *)
Definition truthy (s : option jsstring) : bool :=
  match s with Some t => nonEmpty t | None => false end.

(** [a || b] on strings. *)
Definition orElse (a : option jsstring) (b : jsstring) : jsstring :=
  match a with
  | Some t => if nonEmpty t then t else b
  | None => b
  end.

(** ECMAScript WhiteSpace and LineTerminator code points, the ones
    [trim] strips. All of them are single code units. *)
Definition isWhiteSpace (c : N) : bool :=
  ((9 <=? c) && (c <=? 13) || (c =? 32) || (c =? 0xA0) || (c =? 0x1680)
   || (0x2000 <=? c) && (c <=? 0x200A)
   || (c =? 0x2028) || (c =? 0x2029) || (c =? 0x202F) || (c =? 0x205F)
   || (c =? 0x3000) || (c =? 0xFEFF))%N.

Fixpoint trimStart (s : jsstring) : jsstring :=
  match s with
  | c :: rest => if isWhiteSpace c then trimStart rest else s
  | [] => []
  end.

Definition trimEnd (s : jsstring) : jsstring := reverse (trimStart (reverse s)).

Definition trim (s : jsstring) : jsstring := trimEnd (trimStart s).

(** ** Data model *)

Inductive Units : Type := metric | imperial.

Global Instance Units_eq_dec : EqDecision Units.
Proof. solve_decision. Defined.

Record Coord : Type := { coord_lat : Q; coord_lon : Q }.

Record Condition : Type := { cond_main : jsstring; description : jsstring }.

Record WeatherData : Type := {
  name : jsstring;
  dt : Q;
  timezone : Q;
  visibility : Q;
  coord : option Coord;
  sys_country : jsstring;
  weather : list Condition;
  main_temp : Q;
  main_feels_like : Q;
  main_humidity : Q;
  wind_speed : Q;
}.

Record WeatherRequest : Type := {
  city : option jsstring;
  lat : option Q;
  lon : option Q;
}.

Record WeeklyForecastDay : Type := {
  date : jsstring;
  code : Q;
  tempMax : Q;
  tempMin : Q;
  uvMax : option Q;
  sunrise : option jsstring;
  sunset : option jsstring;
}.

(** ** Pure helpers of the module *)

Definition imperialLocales : gset jsstring :=
  {[ lit "en-US"; lit "en-LR"; lit "en-MM" ]}.

Record Navigator : Type := {
  language : jsstring;
  geolocation : bool;
}.

Definition getDefaultUnits (nav : Navigator) : Units :=
  if bool_decide (language nav ∈ imperialLocales) then imperial else metric.

Record Summary : Type := { label : jsstring; emoji : jsstring }.

Definition getWeeklySummary (code : Q) : Summary :=
  if Qeq_bool code 0 then {| label := lit "Clear"; emoji := [0x2600; 0xFE0F]%N |}
  else if Qle_bool 1 code && Qle_bool code 3
    then {| label := lit "Clouds"; emoji := [0x26C5]%N |}
  else if Qeq_bool code 45 || Qeq_bool code 48
    then {| label := lit "Fog"; emoji := [0xD83C; 0xDF2B; 0xFE0F]%N |}
  else if Qle_bool 51 code && Qle_bool code 55
    then {| label := lit "Drizzle"; emoji := [0xD83C; 0xDF26; 0xFE0F]%N |}
  else if Qle_bool 61 code && Qle_bool code 67
    then {| label := lit "Rain"; emoji := [0xD83C; 0xDF27; 0xFE0F]%N |}
  else if Qle_bool 71 code && Qle_bool code 77
    then {| label := lit "Snow"; emoji := [0x2744; 0xFE0F]%N |}
  else if Qle_bool 80 code && Qle_bool code 82
    then {| label := lit "Showers"; emoji := [0xD83C; 0xDF26; 0xFE0F]%N |}
  else if Qeq_bool code 85 || Qeq_bool code 86
    then {| label := lit "Snow"; emoji := [0xD83C; 0xDF28; 0xFE0F]%N |}
  else if Qle_bool 95 code
    then {| label := lit "Storm"; emoji := [0x26C8; 0xFE0F]%N |}
  else {| label := lit "Clear"; emoji := [0x2728]%N |}.

(** ** Component state: the [useState] cells and the [lastRequest] ref *)

Record AppState : Type := {
  query : jsstring;
  units : Units;
  data : option WeatherData;
  loading : bool;
  error : jsstring;
  weekly : option (list WeeklyForecastDay);
  weeklyLoading : bool;
  weeklyError : jsstring;
  lastRequest : option WeatherRequest;
}.

Definition setQuery (v : jsstring) (s : AppState) : AppState :=
  {| query := v; units := units s; data := data s; loading := loading s;
     error := error s; weekly := weekly s; weeklyLoading := weeklyLoading s;
     weeklyError := weeklyError s; lastRequest := lastRequest s |}.

Definition setUnits (f : Units → Units) (s : AppState) : AppState :=
  {| query := query s; units := f (units s); data := data s; loading := loading s;
     error := error s; weekly := weekly s; weeklyLoading := weeklyLoading s;
     weeklyError := weeklyError s; lastRequest := lastRequest s |}.

Definition setData (v : option WeatherData) (s : AppState) : AppState :=
  {| query := query s; units := units s; data := v; loading := loading s;
     error := error s; weekly := weekly s; weeklyLoading := weeklyLoading s;
     weeklyError := weeklyError s; lastRequest := lastRequest s |}.

Definition setLoading (v : bool) (s : AppState) : AppState :=
  {| query := query s; units := units s; data := data s; loading := v;
     error := error s; weekly := weekly s; weeklyLoading := weeklyLoading s;
     weeklyError := weeklyError s; lastRequest := lastRequest s |}.

Definition setError (v : jsstring) (s : AppState) : AppState :=
  {| query := query s; units := units s; data := data s; loading := loading s;
     error := v; weekly := weekly s; weeklyLoading := weeklyLoading s;
     weeklyError := weeklyError s; lastRequest := lastRequest s |}.

Definition setWeekly (v : option (list WeeklyForecastDay)) (s : AppState) : AppState :=
  {| query := query s; units := units s; data := data s; loading := loading s;
     error := error s; weekly := v; weeklyLoading := weeklyLoading s;
     weeklyError := weeklyError s; lastRequest := lastRequest s |}.

Definition setWeeklyLoading (v : bool) (s : AppState) : AppState :=
  {| query := query s; units := units s; data := data s; loading := loading s;
     error := error s; weekly := weekly s; weeklyLoading := v;
     weeklyError := weeklyError s; lastRequest := lastRequest s |}.

Definition setWeeklyError (v : jsstring) (s : AppState) : AppState :=
  {| query := query s; units := units s; data := data s; loading := loading s;
     error := error s; weekly := weekly s; weeklyLoading := weeklyLoading s;
     weeklyError := v; lastRequest := lastRequest s |}.

(** [lastRequest.current = request] *)
Definition setLastRequest (v : WeatherRequest) (s : AppState) : AppState :=
  {| query := query s; units := units s; data := data s; loading := loading s;
     error := error s; weekly := weekly s; weeklyLoading := weeklyLoading s;
     weeklyError := weeklyError s; lastRequest := Some v |}.

(** ** Requests and responses *)

Inductive Provider : Type := OpenWeather | OpenMeteo.

Global Instance Provider_eq_dec : EqDecision Provider.
Proof. solve_decision. Defined.

(** A query-string value: a string of the source, or [n.toString()] for a
    number [n], whose decimal rendering is kept symbolic. *)
Inductive ParamValue : Type :=
  | Text (s : jsstring)
  | NumberText (n : Q).

Definition URLSearchParams : Type := list (jsstring * ParamValue).

(** [params.set(key, value)]: overwrite the first pair named [key] and
    drop the other ones, or append. *)
Fixpoint params_set (key : jsstring) (value : ParamValue) (ps : URLSearchParams)
  : URLSearchParams :=
  match ps with
  | [] => [(key, value)]
  | (k, v) :: rest =>
      if decide (k = key)
      then (key, value) :: filter (λ p, p.1 ≠ key) rest
      else (k, v) :: params_set key value rest
  end.

(** [params.get(key)]: the value of the first pair named [key]. *)
Definition params_get (key : jsstring) (ps : URLSearchParams) : option ParamValue :=
  (λ hit, hit.2.2) <$> list_find (λ p, p.1 = key) ps.

(** One call of the global [fetch]. *)
Record NetCall : Type := { endpoint : Provider; params : URLSearchParams }.

(** What a [catch (err)] clause may receive. *)
Inductive Thrown : Type :=
  | ErrorObj (message : jsstring)
  | NonError.

(** [err instanceof Error ? err.message : 'Unknown error'] *)
Definition caughtMessage (err : Thrown) : jsstring :=
  match err with
  | ErrorObj message => message
  | NonError => lit "Unknown error"
  end.

(** A fulfilled [fetch]: the [ok] flag and what [response.json()] settles to. *)
Record Response (B : Type) : Type := { ok : bool; json : Thrown + B }.
Arguments ok {B} _.
Arguments json {B} _.

(** How the promise of a [fetch] settles: rejected or fulfilled. *)
Definition Settled (B : Type) : Type := Thrown + Response B.

(** Provider A body: its optional [message] and the body read as [WeatherData]. *)
Record WeatherBody : Type := {
  message : option jsstring;
  asWeatherData : WeatherData;
}.

Record Daily : Type := {
  time : option (list jsstring);
  weathercode : option (list Q);
  temperature_2m_max : option (list Q);
  temperature_2m_min : option (list Q);
  uv_index_max : option (list Q);
  daily_sunrise : option (list jsstring);
  daily_sunset : option (list jsstring);
}.

Record ForecastBody : Type := { daily : option Daily }.

(** ** The world around the component *)

Record Env : Type := {
  apiKey : option jsstring;        (* import.meta.env.VITE_OPENWEATHER_API_KEY *)
  navigator : option Navigator;    (* None: typeof navigator === 'undefined' *)
}.

Definition WeeklyDeps : Type := option Q * option Q * Units.

Record World : Type := {
  app : AppState;
  replayDeps : option Units;       (* last [fetchWeather, units] seen by the effect *)
  weeklyDeps : option WeeklyDeps;  (* last [lat, lon, fetchWeeklyForecast] seen *)
  net : list NetCall;              (* every fetch issued, oldest first *)
  settled : list nat;              (* indices of [net] whose promise has settled *)
  geo : list Units;                (* getCurrentPosition calls, with the units their
                                      fetchWeather closure captured *)
  geoDone : list nat;              (* indices of [geo] already called back *)
}.

Definition upd (f : AppState → AppState) (w : World) : World :=
  {| app := f (app w); replayDeps := replayDeps w; weeklyDeps := weeklyDeps w;
     net := net w; settled := settled w; geo := geo w; geoDone := geoDone w |}.

Definition issue (call : NetCall) (w : World) : World :=
  {| app := app w; replayDeps := replayDeps w; weeklyDeps := weeklyDeps w;
     net := net w ++ [call]; settled := settled w; geo := geo w;
     geoDone := geoDone w |}.

Definition markSettled (id : nat) (w : World) : World :=
  {| app := app w; replayDeps := replayDeps w; weeklyDeps := weeklyDeps w;
     net := net w; settled := id :: settled w; geo := geo w;
     geoDone := geoDone w |}.

Definition askPosition (u : Units) (w : World) : World :=
  {| app := app w; replayDeps := replayDeps w; weeklyDeps := weeklyDeps w;
     net := net w; settled := settled w; geo := geo w ++ [u];
     geoDone := geoDone w |}.

Definition markCalledBack (i : nat) (w : World) : World :=
  {| app := app w; replayDeps := replayDeps w; weeklyDeps := weeklyDeps w;
     net := net w; settled := settled w; geo := geo w;
     geoDone := i :: geoDone w |}.

Definition remember (u : Units) (d : WeeklyDeps) (w : World) : World :=
  {| app := app w; replayDeps := Some u; weeklyDeps := Some d;
     net := net w; settled := settled w; geo := geo w; geoDone := geoDone w |}.

(** The call with index [id], if it is still in flight. *)
Definition pending (w : World) (id : nat) : option NetCall :=
  if decide (id ∈ settled w) then None else net w !! id.

(** ** The two fetch pipelines *)

Definition unitsText (u : Units) : jsstring :=
  match u with metric => lit "metric" | imperial => lit "imperial" end.

(** [units === 'imperial' ? 'fahrenheit' : 'celsius'] *)
Definition temperatureUnit (u : Units) : jsstring :=
  if decide (u = imperial) then lit "fahrenheit" else lit "celsius".

(** The query string [fetchWeather] builds for [request]. *)
Definition weatherParams (key : jsstring) (u : Units) (request : WeatherRequest)
  : URLSearchParams :=
  let params := [(lit "appid", Text key); (lit "units", Text (unitsText u))] in
  let params :=
    if truthy (city request)
    then params_set (lit "q") (Text (default [] (city request))) params
    else params in
  match lat request, lon request with
  | Some la, Some lo =>
      params_set (lit "lon") (NumberText lo)
        (params_set (lit "lat") (NumberText la) params)
  | _, _ => params
  end.

Definition forecastParams (u : Units) (la lo : Q) : URLSearchParams :=
  [ (lit "latitude", NumberText la);
    (lit "longitude", NumberText lo);
    (lit "daily",
      Text (lit "weathercode,temperature_2m_max,temperature_2m_min,uv_index_max,sunrise,sunset"));
    (lit "timezone", Text (lit "auto"));
    (lit "forecast_days", Text (lit "7"));
    (lit "temperature_unit", Text (temperatureUnit u)) ].

(** The [try] block of [fetchWeather] after the [await]s: the body to
    store, or what is thrown. [response.json()] is awaited before
    [response.ok] is read. *)
Definition weatherTry (r : Settled WeatherBody) : Thrown + WeatherData :=
  match r with
  | inl err => inl err
  | inr response =>
      match json response with
      | inl err => inl err
      | inr body =>
          if negb (ok response)
          then inl (ErrorObj (orElse (message body)
                                (lit "Unable to fetch weather right now.")))
          else inr (asWeatherData body)
      end
  end.

(** The continuation of [fetchWeather] once its request has settled. *)
Definition weatherResumes (r : Settled WeatherBody) (w : World) : World :=
  let w :=
    match weatherTry r with
    | inr body => upd (setData (Some body)) w
    | inl err => upd (setData None) (upd (setError (caughtMessage err)) w)
    end in
  upd (setLoading false) w.

(** [field?.[index]]: the element at [index] of an optional array. *)
Definition at_index {A : Type} (field : option (list A)) (index : nat) : option A :=
  field ≫= λ a, a !! index.

(** One element of [daily.time.map((date, index) => ...)]. *)
Definition forecastDay (d : Daily) (index : nat) (date : jsstring) : WeeklyForecastDay :=
  {| date := date;
     code := default 0%Q (at_index (weathercode d) index);
     tempMax := default 0%Q (at_index (temperature_2m_max d) index);
     tempMin := default 0%Q (at_index (temperature_2m_min d) index);
     uvMax := at_index (uv_index_max d) index;
     sunrise := at_index (daily_sunrise d) index;
     sunset := at_index (daily_sunset d) index |}.

(** [daily?.time?.length], when truthy, with the [daily] it belongs to. *)
Definition dailyTimes (body : ForecastBody) : option (Daily * list jsstring) :=
  d ← daily body;
  t ← time d;
  if decide (length t = 0) then None else Some (d, t).

(** The [try] block of [fetchWeeklyForecast] after the [await]s. Here
    [response.ok] is read first and the body only afterwards. *)
Definition forecastTry (r : Settled ForecastBody) : Thrown + list WeeklyForecastDay :=
  match r with
  | inl err => inl err
  | inr response =>
      if negb (ok response)
      then inl (ErrorObj (lit "Unable to fetch the weekly forecast."))
      else
        match json response with
        | inl err => inl err
        | inr body =>
            match dailyTimes body with
            | None => inl (ErrorObj (lit "Weekly forecast data is unavailable."))
            | Some (d, t) => inr (imap (forecastDay d) t)
            end
        end
  end.

(** The continuation of [fetchWeeklyForecast] once its request has settled. *)
Definition forecastResumes (r : Settled ForecastBody) (w : World) : World :=
  let w :=
    match forecastTry r with
    | inr nextWeek => upd (setWeekly (Some nextWeek)) w
    | inl err => upd (setWeekly None) (upd (setWeeklyError (caughtMessage err)) w)
    end in
  upd (setWeeklyLoading false) w.

(** [fetchWeeklyForecast(lat, lon)] up to its first [await], for the
    closure that captured units [u]. *)
Definition fetchWeeklyForecast (u : Units) (la lo : Q) (w : World) : World :=
  let w := upd (setWeeklyError []) (upd (setWeeklyLoading true) w) in
  issue {| endpoint := OpenMeteo; params := forecastParams u la lo |} w.

Section Component.

Variable env : Env.

(** [fetchWeather(request)] up to its first [await], for the closure that
    captured units [u]. *)
Definition fetchWeather (u : Units) (request : WeatherRequest) (w : World) : World :=
  match apiKey env with
  | Some key =>
      if nonEmpty key then
        let params := weatherParams key u request in
        let w := upd (setLoading true) w in
        let w := upd (setError []) w in
        let w := upd (setLastRequest request) w in
        issue {| endpoint := OpenWeather; params := params |} w
      else
        upd (setError (lit "Add VITE_OPENWEATHER_API_KEY to a .env file to fetch data.")) w
  | None =>
      upd (setError (lit "Add VITE_OPENWEATHER_API_KEY to a .env file to fetch data.")) w
  end.

(** ** Rendering and the two effects *)

Definition sameNumber (a b : option Q) : bool :=
  match a, b with
  | Some x, Some y => Qeq_bool x y
  | None, None => true
  | _, _ => false
  end.

(** [data?.coord?.lat], [data?.coord?.lon] and the identity of
    [fetchWeeklyForecast], which changes exactly with [units]. *)
Definition weeklyDepsOf (s : AppState) : WeeklyDeps :=
  (coord_lat <$> (data s ≫= coord), coord_lon <$> (data s ≫= coord), units s).

Definition sameWeeklyDeps (a b : WeeklyDeps) : bool :=
  sameNumber a.1.1 b.1.1 && sameNumber a.1.2 b.1.2 && bool_decide (a.2 = b.2).

(** The effect with dependencies [fetchWeather, units]; [fetchWeather]
    changes identity exactly with [units], the credential being fixed. *)
Definition replayEffect (u : Units) (w : World) : World :=
  match lastRequest (app w) with
  | Some request => fetchWeather u request w
  | None => w
  end.

(** The effect with dependencies [data?.coord?.lat, data?.coord?.lon,
    fetchWeeklyForecast], run with the values [s] of its render. *)
Definition weeklyEffect (s : AppState) (w : World) : World :=
  match data s ≫= coord with
  | None => upd (setWeekly None) w
  | Some c => fetchWeeklyForecast (units s) (coord_lat c) (coord_lon c) w
  end.

(** Whether a dependency array differs from the one of the previous
    commit; on the first commit every effect runs. *)
Definition replayDepsChanged (w : World) : bool :=
  match replayDeps w with
  | Some u => negb (bool_decide (u = units (app w)))
  | None => true
  end.

Definition weeklyDepsChanged (w : World) : bool :=
  match weeklyDeps w with
  | Some d => negb (sameWeeklyDeps d (weeklyDepsOf (app w)))
  | None => true
  end.

(** A render commits: each effect whose dependencies changed runs, in the
    order of declaration, with the values of this render. *)
Definition render (w : World) : World :=
  let s := app w in
  let w1 := if replayDepsChanged w then replayEffect (units s) w else w in
  let w2 := if weeklyDepsChanged w then weeklyEffect s w1 else w1 in
  remember (units s) (weeklyDepsOf s) w2.

(** ** Event handlers *)

Definition onSubmit (w : World) : World :=
  let trimmed := trim (query (app w)) in
  if negb (nonEmpty trimmed)
  then upd (setError (lit "Enter a city name to search.")) w
  else fetchWeather (units (app w))
         {| city := Some trimmed; lat := None; lon := None |} w.

(** [onUseLocation]; without a [navigator] the handler throws and nothing
    is updated. *)
Definition onUseLocation (w : World) : World :=
  match navigator env with
  | None => w
  | Some nav =>
      if negb (geolocation nav)
      then upd (setError (lit "Geolocation is not supported in this browser.")) w
      else askPosition (units (app w)) w
  end.

Definition onPosition (u : Units) (la lo : Q) (w : World) : World :=
  fetchWeather u {| city := None; lat := Some la; lon := Some lo |} w.

Definition onPositionError (w : World) : World :=
  upd (setError (lit "Unable to access your location. Check browser permissions.")) w.

Definition toggleUnits (w : World) : World :=
  upd (setUnits (λ current, if decide (current = metric) then imperial else metric)) w.

(** ** Start-up *)

Definition initialUnits : Units :=
  match navigator env with
  | None => metric
  | Some nav => getDefaultUnits nav
  end.

Definition initialState : AppState :=
  {| query := []; units := initialUnits; data := None; loading := false;
     error := []; weekly := None; weeklyLoading := false; weeklyError := [];
     lastRequest := None |}.

(** The component after its first commit. *)
Definition mount : World :=
  render {| app := initialState; replayDeps := None; weeklyDeps := None;
            net := []; settled := []; geo := []; geoDone := [] |}.

(** ** Events and runs *)

Inductive Event : Type :=
  | Change (text : jsstring)
  | Submit
  | UseLocation
  | Position (i : nat) (la lo : Q)
  | PositionError (i : nat)
  | ToggleUnits
  | WeatherSettled (id : nat) (r : Settled WeatherBody)
  | ForecastSettled (id : nat) (r : Settled ForecastBody).

(** The geolocation request [i], if it has not called back yet. *)
Definition waiting (w : World) (i : nat) : option Units :=
  if decide (i ∈ geoDone w) then None else geo w !! i.

(** One event, followed by the commit it causes; [None] when the event
    cannot happen in [w]. *)
Definition step (w : World) (e : Event) : option World :=
  match e with
  | Change text => Some (render (upd (setQuery text) w))
  | Submit => Some (render (onSubmit w))
  | UseLocation => Some (render (onUseLocation w))
  | Position i la lo =>
      u ← waiting w i; Some (render (onPosition u la lo (markCalledBack i w)))
  | PositionError i =>
      _ ← waiting w i; Some (render (onPositionError (markCalledBack i w)))
  | ToggleUnits => Some (render (toggleUnits w))
  | WeatherSettled id r =>
      call ← pending w id;
      if decide (endpoint call = OpenWeather)
      then Some (render (weatherResumes r (markSettled id w)))
      else None
  | ForecastSettled id r =>
      call ← pending w id;
      if decide (endpoint call = OpenMeteo)
      then Some (render (forecastResumes r (markSettled id w)))
      else None
  end.

Fixpoint run (w : World) (es : list Event) : option World :=
  match es with
  | [] => Some w
  | e :: rest => w' ← step w e; run w' rest
  end.

Inductive reachable : World → Prop :=
  | reachable_mount : reachable mount
  | reachable_step w e w' : reachable w → step w e = Some w' → reachable w'.

End Component.

(** ** Views used by the statements *)

Inductive FetchState (T : Type) : Type :=
  | Idle
  | Loading
  | Success (value : T)
  | Failed (message : jsstring).
Arguments Idle {T}.
Arguments Loading {T}.
Arguments Success {T} _.
Arguments Failed {T} _.

(** The forecast panel as the component renders it:
    [weeklyLoading ? ... : weeklyError ? ... : weekly ? ... : ...]. *)
Definition forecastState (s : AppState) : FetchState (list WeeklyForecastDay) :=
  if weeklyLoading s then Loading
  else if nonEmpty (weeklyError s) then Failed (weeklyError s)
  else match weekly s with
       | Some days => Success days
       | None => Idle
       end.

(** The calls made to Provider A, oldest first. *)
Definition weatherCalls (w : World) : list NetCall :=
  filter (λ c, endpoint c = OpenWeather) (net w).

(** The request a unit toggle makes [weeklyEffect] issue when conditions
    with coordinates are stored. *)
Definition forecastCascade (u : Units) (stored : option WeatherData) : list NetCall :=
  match stored ≫= coord with
  | Some c => [ {| endpoint := OpenMeteo;
                   params := forecastParams u (coord_lat c) (coord_lon c) |} ]
  | None => []
  end.

(** The rows of the weather-code table of the specification, top to bottom. *)
Definition categoryTable : list ((Z → bool) * string) :=
  [ (λ z, z =? 0, "Clear");
    (λ z, (1 <=? z) && (z <=? 3), "Clouds");
    (λ z, (z =? 45) || (z =? 48), "Fog");
    (λ z, (51 <=? z) && (z <=? 55), "Drizzle");
    (λ z, (61 <=? z) && (z <=? 67), "Rain");
    (λ z, (71 <=? z) && (z <=? 77), "Snow");
    (λ z, (80 <=? z) && (z <=? 82), "Showers");
    (λ z, (z =? 85) || (z =? 86), "Snow");
    (λ z, 95 <=? z, "Storm") ]%Z.

(** The category of the first row that matches, [Clear] when none does. *)
Fixpoint firstMatch (rows : list ((Z → bool) * string)) (z : Z) : string :=
  match rows with
  | [] => "Clear"
  | (matches, category) :: rest => if matches z then category else firstMatch rest z
  end.

Definition tableCategory (z : Z) : string := firstMatch categoryTable z.

(** ** Notions used by the proofs *)

(** The dependency arrays recorded by the last commit are the ones of the
    current state. *)
Definition synced (w : World) : Prop :=
  replayDeps w = Some (units (app w))
  ∧ weeklyDeps w = Some (weeklyDepsOf (app w)).

(** The cells written by the current-conditions pipeline, and the ones
    written by the forecast pipeline. *)
Definition currentSide (s : AppState) :=
  (data s, loading s, error s, lastRequest s).

Definition forecastSide (s : AppState) :=
  (weekly s, weeklyLoading s, weeklyError s).

Definition missingKeyMessage : jsstring :=
  lit "Add VITE_OPENWEATHER_API_KEY to a .env file to fetch data.".

(** From [w] to [w'] requests were only added, and none settled. *)
Definition grows (w w' : World) : Prop :=
  (∃ new, net w' = net w ++ new) ∧ settled w' = settled w.

(** Only issued requests have settled. *)
Definition inFlightBound (w : World) : Prop :=
  Forall (λ id, id < length (net w)) (settled w).

(** Nothing was ever requested, stored or remembered. *)
Definition dormant (w : World) : Prop :=
  net w = [] ∧ data (app w) = None ∧ lastRequest (app w) = None.

(** What the [try] block leaves in [data]. *)
Definition storedData (r : Settled WeatherBody) : option WeatherData :=
  match weatherTry r with
  | inr body => Some body
  | inl _ => None
  end.

Definition flipped (u : Units) : Units :=
  match u with metric => imperial | imperial => metric end.

(** ** Concrete values and runs *)

(** A runtime with a credential and without [navigator]. *)
Definition demoEnv : Env :=
  {| apiKey := Some (lit "demo-key"); navigator := None |}.

Definition usEnv : Env :=
  {| apiKey := Some (lit "demo-key");
     navigator := Some {| language := lit "en-US"; geolocation := true |} |}.

Definition noKeyEnv : Env := {| apiKey := None; navigator := None |}.

Definition oslo : WeatherData :=
  {| name := lit "Oslo"; dt := 1700000000; timezone := 3600; visibility := 10000;
     coord := Some {| coord_lat := 5991 # 100; coord_lon := 1075 # 100 |};
     sys_country := lit "NO";
     weather := [ {| cond_main := lit "Clouds"; description := lit "broken clouds" |} ];
     main_temp := 4; main_feels_like := 1; main_humidity := 80; wind_speed := 5 |}.

Definition rome : WeatherData :=
  {| name := lit "Rome"; dt := 1700000060; timezone := 3600; visibility := 9000;
     coord := Some {| coord_lat := 4189 # 100; coord_lon := 1248 # 100 |};
     sys_country := lit "IT";
     weather := [ {| cond_main := lit "Clear"; description := lit "clear sky" |} ];
     main_temp := 17; main_feels_like := 16; main_humidity := 55; wind_speed := 2 |}.

Definition cityRequest (text : string) : WeatherRequest :=
  {| city := Some (lit text); lat := None; lon := None |}.

(** A 200 response of Provider A carrying [d]. *)
Definition fulfilled (d : WeatherData) : Settled WeatherBody :=
  inr {| ok := true; json := inr {| message := None; asWeatherData := d |} |}.

(** A [fetch] that rejects, as when the network is unreachable. *)
Definition rejected : Settled WeatherBody := inl (ErrorObj (lit "Failed to fetch")).

(** Two days, with a weather code and a sunrise for the first one only. *)
Definition twoDays : Daily :=
  {| time := Some [lit "2024-01-01"; lit "2024-01-02"];
     weathercode := Some [61%Q];
     temperature_2m_max := Some [3%Q; 5%Q];
     temperature_2m_min := None;
     uv_index_max := None;
     daily_sunrise := Some [lit "2024-01-01T09:18"];
     daily_sunset := None |}.

Definition week : Settled ForecastBody :=
  inr {| ok := true; json := inr {| daily := Some twoDays |} |}.

Definition emptyWeek : Response ForecastBody :=
  {| ok := true;
     json := inr {| daily := Some {| time := Some []; weathercode := None;
                                     temperature_2m_max := None;
                                     temperature_2m_min := None;
                                     uv_index_max := None; daily_sunrise := None;
                                     daily_sunset := None |} |} |}.

Definition storedWeek : list WeeklyForecastDay :=
  [ {| date := lit "2024-01-01"; code := 61; tempMax := 3; tempMin := 0;
       uvMax := None; sunrise := Some (lit "2024-01-01T09:18"); sunset := None |};
    {| date := lit "2024-01-02"; code := 0; tempMax := 5; tempMin := 0;
       uvMax := None; sunrise := None; sunset := None |} ].

(** Oslo is searched and its request is in flight. *)
Definition searching : World :=
  default (mount demoEnv)
    (run demoEnv (mount demoEnv) [Change (lit " Oslo "); Submit]).

(** Oslo has been stored and its forecast request is in flight. *)
Definition forecasting : World :=
  default (mount demoEnv)
    (run demoEnv (mount demoEnv)
       [Change (lit " Oslo "); Submit; WeatherSettled 0 (fulfilled oslo)]).

(** Oslo and its forecast are stored, and Oslo is being searched again. *)
Definition refreshing : World :=
  default (mount demoEnv)
    (run demoEnv (mount demoEnv)
       [Change (lit " Oslo "); Submit; WeatherSettled 0 (fulfilled oslo);
        ForecastSettled 1 week; Submit]).

(** Oslo is searched, then Rome while Oslo is in flight; Rome answers
    first and Oslo afterwards. *)
Definition raceTrace : list Event :=
  [ Change (lit "Oslo"); Submit; Change (lit "Rome"); Submit;
    WeatherSettled 1 (fulfilled rome); WeatherSettled 0 (fulfilled oslo) ].

(** The search box holds " Oslo " and nothing was submitted yet. *)
Definition typed : World :=
  default (mount demoEnv) (run demoEnv (mount demoEnv) [Change (lit " Oslo ")]).

(** ** Labels of the render *)

Definition temperatureLabel (u : Units) : jsstring :=
  if decide (u = metric) then lit "C" else lit "F".

Definition windLabel (u : Units) : jsstring :=
  if decide (u = metric) then lit "m/s" else lit "mph".

Definition statusBadge (u : Units) : jsstring :=
  if decide (u = metric) then lit "Celsius" else lit "Fahrenheit".

(** ** Further notions used by the proofs *)

(** The request the geolocation callback builds. *)
Definition coordsRequest (la lo : Q) : WeatherRequest :=
  {| city := None; lat := Some la; lon := Some lo |}.

(** The names of a query string, in order. *)
Definition paramNames (ps : URLSearchParams) : list jsstring := fst <$> ps.

(** The calls the component can make with the credential [key]. *)
Definition knownCall (key : jsstring) (c : NetCall) : Prop :=
  (∃ u request,
     c = {| endpoint := OpenWeather; params := weatherParams key u request |})
  ∨ (∃ u la lo,
       c = {| endpoint := OpenMeteo; params := forecastParams u la lo |}).

(** [Object.is] on the two coordinates of two optional [coord]s. *)
Definition sameCoords (a b : option Coord) : bool :=
  match a, b with
  | Some x, Some y =>
      Qeq_bool (coord_lat x) (coord_lat y) && Qeq_bool (coord_lon x) (coord_lon y)
  | None, None => true
  | _, _ => false
  end.

(** The current-conditions request [id] settles to [r] and ends in the
    error [msg]: nothing is stored and nothing is requested again. *)
Definition weatherFailsWith (env : Env) (w : World) (id : nat)
    (r : Settled WeatherBody) (msg : jsstring) : Prop :=
  ∃ w', step env w (WeatherSettled id r) = Some w'
    ∧ error (app w') = msg
    ∧ data (app w') = None
    ∧ loading (app w') = false
    ∧ net w' = net w.

(** The same for the forecast request [id]. *)
Definition forecastFailsWith (env : Env) (w : World) (id : nat)
    (r : Settled ForecastBody) (msg : jsstring) : Prop :=
  ∃ w', step env w (ForecastSettled id r) = Some w'
    ∧ weeklyError (app w') = msg
    ∧ weekly (app w') = None
    ∧ weeklyLoading (app w') = false
    ∧ net w' = net w
    ∧ currentSide (app w') = currentSide (app w).

(** Some request to provider [p] is in flight. *)
Definition inFlight (w : World) (p : Provider) : Prop :=
  ∃ id call, pending w id = Some call ∧ endpoint call = p.

(** Each loading flag that is up has a request in flight behind it. *)
Definition loadingBacked (w : World) : Prop :=
  (loading (app w) = true → inFlight w OpenWeather)
  ∧ (weeklyLoading (app w) = true → inFlight w OpenMeteo).

(** Only geolocation requests that were made have called back. *)
Definition geoBound (w : World) : Prop :=
  Forall (λ i, i < length (geo w)) (geoDone w).

(** No location was requested so far: nothing was asked of the
    providers and nothing is stored. *)
Definition pristine (w : World) : Prop :=
  net w = [] ∧ data (app w) = None ∧ weekly (app w) = None
  ∧ lastRequest (app w) = None.

(** The calls made to Provider B, oldest first. *)
Definition forecastCalls (w : World) : list NetCall :=
  filter (λ c, endpoint c = OpenMeteo) (net w).

(** What the [try] block of the forecast leaves in [weekly]. *)
Definition storedForecast (r : Settled ForecastBody) : option (list WeeklyForecastDay) :=
  match forecastTry r with
  | inr days => Some days
  | inl _ => None
  end.

(** [new] is [old], or [old] with one more call at its end. *)
Definition atMostOneMore (old new : list NetCall) : Prop :=
  new = old ∨ ∃ c, new = old ++ [c].

(** The race of [raceTrace] is over and both forecasts are in flight. *)
Definition racing : World :=
  default (mount demoEnv) (run demoEnv (mount demoEnv) raceTrace).

(** A position. *)
Definition somewhere : Q * Q := (4821 # 100, 1637 # 100).

(** * Properties *)

(** ** Numbers and strings *)

Lemma Qeq_bool_inject (a b : Z) : Qeq_bool (inject_Z a) (inject_Z b) = (a =? b)%Z.
Proof. unfold Qeq_bool, inject_Z; simpl. by rewrite !Z.mul_1_r. Qed.

Lemma Qle_bool_inject (a b : Z) : Qle_bool (inject_Z a) (inject_Z b) = (a <=? b)%Z.
Proof. unfold Qle_bool, inject_Z; simpl. by rewrite !Z.mul_1_r. Qed.

Lemma sameNumber_refl (a : option Q) : sameNumber a a = true.
Proof. destruct a; simpl; [apply Qeq_bool_refl | done]. Qed.

Lemma sameWeeklyDeps_refl (d : WeeklyDeps) : sameWeeklyDeps d d = true.
Proof.
  unfold sameWeeklyDeps. rewrite !sameNumber_refl. simpl.
  by apply bool_decide_eq_true.
Qed.

(** ** Weather codes *)

(** C4. For every integer weather code the label of [getWeeklySummary] is
    the category of the first matching row of the table: 0 Clear, 1-3
    Clouds, 45 and 48 Fog, 51-55 Drizzle, 61-67 Rain, 71-77 Snow, 80-82
    Showers, 85 and 86 Snow, 95 and above Storm, anything else Clear; the
    boundary codes 0, 3, 45, 48, 55, 67, 77, 82, 86, 95 and the codes 99
    and 20 are spelled out. *)
Theorem getWeeklySummary_table :
  (∀ z : Z, label (getWeeklySummary (inject_Z z)) = lit (tableCategory z))
  ∧ label (getWeeklySummary 0) = lit "Clear"
  ∧ label (getWeeklySummary 3) = lit "Clouds"
  ∧ label (getWeeklySummary 45) = lit "Fog"
  ∧ label (getWeeklySummary 48) = lit "Fog"
  ∧ label (getWeeklySummary 55) = lit "Drizzle"
  ∧ label (getWeeklySummary 67) = lit "Rain"
  ∧ label (getWeeklySummary 77) = lit "Snow"
  ∧ label (getWeeklySummary 82) = lit "Showers"
  ∧ label (getWeeklySummary 86) = lit "Snow"
  ∧ label (getWeeklySummary 95) = lit "Storm"
  ∧ label (getWeeklySummary 99) = lit "Storm"
  ∧ label (getWeeklySummary 20) = lit "Clear".
Proof.
  split; [| repeat split; reflexivity].
  intros z. unfold getWeeklySummary, tableCategory, categoryTable, firstMatch.
  change 0%Q with (inject_Z 0). change 1%Q with (inject_Z 1).
  change 3%Q with (inject_Z 3). change 45%Q with (inject_Z 45).
  change 48%Q with (inject_Z 48). change 51%Q with (inject_Z 51).
  change 55%Q with (inject_Z 55). change 61%Q with (inject_Z 61).
  change 67%Q with (inject_Z 67). change 71%Q with (inject_Z 71).
  change 77%Q with (inject_Z 77). change 80%Q with (inject_Z 80).
  change 82%Q with (inject_Z 82). change 85%Q with (inject_Z 85).
  change 86%Q with (inject_Z 86). change 95%Q with (inject_Z 95).
  rewrite !Qeq_bool_inject, !Qle_bool_inject.
  repeat (case_match; [reflexivity |]). reflexivity.
Qed.

(** ** Rendering *)

Arguments render : simpl never.
Arguments fetchWeather : simpl never.

Lemma fetchWeather_units env u request w :
  units (app (fetchWeather env u request w)) = units (app w).
Proof. unfold fetchWeather. repeat case_match; reflexivity. Qed.

Lemma fetchWeather_data env u request w :
  data (app (fetchWeather env u request w)) = data (app w).
Proof. unfold fetchWeather. repeat case_match; reflexivity. Qed.

Lemma replayEffect_units env u w :
  units (app (replayEffect env u w)) = units (app w).
Proof. unfold replayEffect. case_match; [apply fetchWeather_units | done]. Qed.

Lemma replayEffect_data env u w :
  data (app (replayEffect env u w)) = data (app w).
Proof. unfold replayEffect. case_match; [apply fetchWeather_data | done]. Qed.

Lemma weeklyEffect_units s w : units (app (weeklyEffect s w)) = units (app w).
Proof. unfold weeklyEffect. by case_match. Qed.

Lemma weeklyEffect_data s w : data (app (weeklyEffect s w)) = data (app w).
Proof. unfold weeklyEffect. by case_match. Qed.

(** A commit changes neither the unit system nor the stored conditions. *)
Lemma render_units env w : units (app (render env w)) = units (app w).
Proof.
  unfold render; simpl.
  repeat case_match;
    rewrite ?weeklyEffect_units, ?replayEffect_units; done.
Qed.

Lemma render_data env w : data (app (render env w)) = data (app w).
Proof.
  unfold render; simpl.
  repeat case_match;
    rewrite ?weeklyEffect_data, ?replayEffect_data; done.
Qed.

Lemma render_synced env w : synced (render env w).
Proof.
  split.
  - by rewrite render_units.
  - unfold weeklyDepsOf. by rewrite render_units, render_data.
Qed.

(** With unchanged dependencies no effect runs. *)
Lemma synced_quiet w :
  synced w → replayDepsChanged w = false ∧ weeklyDepsChanged w = false.
Proof.
  intros [H1 H2]. unfold replayDepsChanged, weeklyDepsChanged.
  rewrite H1, H2, sameWeeklyDeps_refl. by rewrite bool_decide_eq_true_2.
Qed.

Lemma render_id env w : synced w → render env w = w.
Proof.
  intros H. destruct (synced_quiet w H) as [Q1 Q2]. destruct H as [H1 H2].
  unfold render. rewrite Q1, Q2.
  destruct w; simpl in *. by rewrite H1, H2.
Qed.

Lemma render_idempotent env w : render env (render env w) = render env w.
Proof. apply render_id, render_synced. Qed.

Lemma mount_synced env : synced (mount env).
Proof. apply render_synced. Qed.

(** What a step that happens looks like: a handler or a continuation
    [v], then the commit. *)
Lemma step_inv env w e w' :
  step env w e = Some w' →
  ∃ v, w' = render env v ∧
  match e with
  | Change text => v = upd (setQuery text) w
  | Submit => v = onSubmit env w
  | UseLocation => v = onUseLocation env w
  | Position i la lo =>
      ∃ u, waiting w i = Some u ∧ v = onPosition env u la lo (markCalledBack i w)
  | PositionError i =>
      ∃ u, waiting w i = Some u ∧ v = onPositionError (markCalledBack i w)
  | ToggleUnits => v = toggleUnits w
  | WeatherSettled id r =>
      ∃ call, pending w id = Some call ∧ endpoint call = OpenWeather
        ∧ v = weatherResumes r (markSettled id w)
  | ForecastSettled id r =>
      ∃ call, pending w id = Some call ∧ endpoint call = OpenMeteo
        ∧ v = forecastResumes r (markSettled id w)
  end.
Proof.
  destruct e; unfold step; intros H;
    try (injection H as <-; eexists; split; reflexivity).
  - destruct (waiting w i) as [u|] eqn:E; [| done]. simpl in H.
    injection H as <-. eexists; split; [done | by exists u].
  - destruct (waiting w i) as [u|] eqn:E; [| done]. simpl in H.
    injection H as <-. eexists; split; [done | by exists u].
  - destruct (pending w id) as [call|] eqn:E; [| done]. simpl in H.
    case_decide; [| done]. injection H as <-.
    eexists; split; [done | by exists call].
  - destruct (pending w id) as [call|] eqn:E; [| done]. simpl in H.
    case_decide; [| done]. injection H as <-.
    eexists; split; [done | by exists call].
Qed.

(** Case analysis on a step [H] of event [e]. *)
Ltac step_cases H e :=
  let v := fresh "v" in
  let Hv := fresh "Hv" in
  apply step_inv in H as (v & -> & Hv);
  destruct e;
  [ subst v | subst v | subst v
  | destruct Hv as (? & ? & ->) | destruct Hv as (? & ? & ->)
  | subst v
  | destruct Hv as (? & ? & ? & ->) | destruct Hv as (? & ? & ? & ->) ].

(** A settling event happens as soon as its request is in flight. *)
Lemma step_weather_settles env w id r call :
  pending w id = Some call → endpoint call = OpenWeather →
  step env w (WeatherSettled id r)
  = Some (render env (weatherResumes r (markSettled id w))).
Proof. intros E1 E2. unfold step. rewrite E1. simpl. by rewrite decide_True. Qed.

Lemma step_forecast_settles env w id r call :
  pending w id = Some call → endpoint call = OpenMeteo →
  step env w (ForecastSettled id r)
  = Some (render env (forecastResumes r (markSettled id w))).
Proof. intros E1 E2. unfold step. rewrite E1. simpl. by rewrite decide_True. Qed.

Lemma step_synced env w e w' : step env w e = Some w' → synced w'.
Proof. intros H. apply step_inv in H as (v & -> & _). apply render_synced. Qed.

Lemma reachable_synced env w : reachable env w → synced w.
Proof.
  induction 1 as [|w e w' _ _ Hstep]; [apply mount_synced |].
  by eapply step_synced.
Qed.

(** ** Start-up *)

Lemma step_units env w e w' :
  step env w e = Some w' → e ≠ ToggleUnits → units (app w') = units (app w).
Proof.
  intros H Hne. step_cases H e; rewrite render_units; try done.
  - unfold onSubmit. case_match; [done | apply fetchWeather_units].
  - unfold onUseLocation. by repeat case_match.
  - unfold onPosition. by rewrite fetchWeather_units.
  - unfold weatherResumes. by case_match.
  - unfold forecastResumes. by case_match.
Qed.

(** C10. The unit system the component starts with is imperial exactly
    when a [navigator] exists and its language is en-US, en-LR or en-MM,
    and metric in every other case, in particular without [navigator];
    afterwards only the unit toggle changes it, the locale is not read
    again. *)
Theorem initial_units_by_locale (env : Env) :
  (units (app (mount env)) = imperial ↔
     ∃ nav, navigator env = Some nav
       ∧ (language nav = lit "en-US" ∨ language nav = lit "en-LR"
          ∨ language nav = lit "en-MM"))
  ∧ (units (app (mount env)) = metric ↔
     ¬ ∃ nav, navigator env = Some nav
       ∧ (language nav = lit "en-US" ∨ language nav = lit "en-LR"
          ∨ language nav = lit "en-MM"))
  ∧ (navigator env = None → units (app (mount env)) = metric)
  ∧ (∀ w e w', step env w e = Some w' → e ≠ ToggleUnits →
       units (app w') = units (app w)).
Proof.
  assert (Hloc : ∀ l : jsstring, l ∈ imperialLocales ↔
            l = lit "en-US" ∨ l = lit "en-LR" ∨ l = lit "en-MM").
  { intros l. unfold imperialLocales. set_solver. }
  unfold mount. rewrite render_units. simpl. unfold initialUnits, getDefaultUnits.
  split_and!.
  - destruct (navigator env) as [nav|]; [case_bool_decide as Hin |].
    + split; [intros _; exists nav; split; [done | by apply Hloc] | done].
    + split; [done |]. intros (nav' & [= <-] & Hl). by apply Hloc in Hl.
    + split; [done | by intros (nav' & ? & _)].
  - destruct (navigator env) as [nav|]; [case_bool_decide as Hin |].
    + split; [done |]. intros Hno. destruct Hno. exists nav. split; [done | by apply Hloc].
    + split; [| done]. intros _ (nav' & [= <-] & Hl). by apply Hloc in Hl.
    + split; [| done]. by intros _ (nav' & ? & _).
  - by intros ->.
  - apply step_units.
Qed.

(** ** Frames of the two pipelines *)

Lemma truthy_Some (k : option jsstring) :
  truthy k = true ↔ ∃ key, k = Some key ∧ nonEmpty key = true.
Proof.
  destruct k as [key|]; simpl; split.
  - intros H. by exists key.
  - by intros (? & [= <-] & ?).
  - done.
  - by intros (? & ? & _).
Qed.

Lemma fetchWeather_configured env key u request w :
  apiKey env = Some key → nonEmpty key = true →
  fetchWeather env u request w
  = issue {| endpoint := OpenWeather; params := weatherParams key u request |}
      (upd (setLastRequest request) (upd (setError []) (upd (setLoading true) w))).
Proof. intros H1 H2. unfold fetchWeather. by rewrite H1, H2. Qed.

Lemma fetchWeather_unconfigured env u request w :
  truthy (apiKey env) = false →
  fetchWeather env u request w = upd (setError missingKeyMessage) w.
Proof.
  unfold fetchWeather, truthy. destruct (apiKey env) as [key|]; [| done].
  by intros ->.
Qed.

Lemma fetchWeather_cases env u request w :
  (∃ key, apiKey env = Some key ∧ nonEmpty key = true
     ∧ fetchWeather env u request w
       = issue {| endpoint := OpenWeather; params := weatherParams key u request |}
           (upd (setLastRequest request)
              (upd (setError []) (upd (setLoading true) w))))
  ∨ (truthy (apiKey env) = false
     ∧ fetchWeather env u request w = upd (setError missingKeyMessage) w).
Proof.
  destruct (truthy (apiKey env)) eqn:E.
  - apply truthy_Some in E as (key & E1 & E2). left. exists key.
    split_and!; [done | done | by apply fetchWeather_configured].
  - right. split; [done | by apply fetchWeather_unconfigured].
Qed.

Lemma fetchWeather_forecastSide env u request w :
  forecastSide (app (fetchWeather env u request w)) = forecastSide (app w).
Proof.
  destruct (fetchWeather_cases env u request w) as [(k & _ & _ & ->) | [_ ->]]; done.
Qed.

Lemma fetchWeather_deps env u request w :
  replayDeps (fetchWeather env u request w) = replayDeps w
  ∧ weeklyDeps (fetchWeather env u request w) = weeklyDeps w
  ∧ settled (fetchWeather env u request w) = settled w
  ∧ geo (fetchWeather env u request w) = geo w
  ∧ geoDone (fetchWeather env u request w) = geoDone w.
Proof.
  destruct (fetchWeather_cases env u request w) as [(k & _ & _ & ->) | [_ ->]]; done.
Qed.

Lemma fetchWeather_synced env u request w :
  synced w → synced (fetchWeather env u request w).
Proof.
  intros [H1 H2]. destruct (fetchWeather_deps env u request w) as (E1 & E2 & _).
  split.
  - by rewrite E1, fetchWeather_units.
  - unfold weeklyDepsOf. by rewrite E2, fetchWeather_units, fetchWeather_data.
Qed.

Lemma weeklyEffect_currentSide s w :
  currentSide (app (weeklyEffect s w)) = currentSide (app w).
Proof. unfold weeklyEffect. by case_match. Qed.

Lemma weeklyEffect_weatherCalls s w :
  weatherCalls (weeklyEffect s w) = weatherCalls w.
Proof.
  unfold weeklyEffect, weatherCalls. case_match; [| done]. simpl.
  rewrite filter_app. simpl. by rewrite app_nil_r.
Qed.

(** When the unit system is the one of the previous commit, the commit
    is at most the weekly effect. *)
Lemma render_quiet env w :
  replayDeps w = Some (units (app w)) →
  render env w
  = remember (units (app w)) (weeklyDepsOf (app w))
      (if weeklyDepsChanged w then weeklyEffect (app w) w else w).
Proof.
  intros H. unfold render, replayDepsChanged.
  by rewrite H, bool_decide_eq_true_2.
Qed.

Lemma render_quiet_currentSide env w :
  replayDeps w = Some (units (app w)) →
  currentSide (app (render env w)) = currentSide (app w).
Proof.
  intros H. rewrite render_quiet by done. simpl.
  case_match; [apply weeklyEffect_currentSide | done].
Qed.

Lemma render_quiet_weatherCalls env w :
  replayDeps w = Some (units (app w)) →
  weatherCalls (render env w) = weatherCalls w.
Proof.
  intros H. rewrite render_quiet by done.
  case_match; [| done].
  by rewrite <- (weeklyEffect_weatherCalls (app w) w).
Qed.

(** ** The log of requests *)

Lemma grows_refl w : grows w w.
Proof. split; [exists []; by rewrite app_nil_r | done]. Qed.

Lemma grows_trans w1 w2 w3 : grows w1 w2 → grows w2 w3 → grows w1 w3.
Proof.
  intros [[n1 E1] S1] [[n2 E2] S2]. split; [| congruence].
  exists (n1 ++ n2). by rewrite E2, E1, app_assoc.
Qed.

Lemma grows_upd f w : grows w (upd f w).
Proof. split; [exists []; simpl; by rewrite app_nil_r | done]. Qed.

Lemma grows_issue call w : grows w (issue call w).
Proof. split; [by exists [call] | done]. Qed.

Lemma fetchWeather_grows env u request w : grows w (fetchWeather env u request w).
Proof.
  destruct (fetchWeather_cases env u request w) as [(k & _ & _ & ->) | [_ ->]].
  - eapply grows_trans; [| apply grows_issue]. do 3 (eapply grows_trans; [| apply grows_upd]).
    apply grows_refl.
  - apply grows_upd.
Qed.

Lemma weeklyEffect_grows s w : grows w (weeklyEffect s w).
Proof.
  unfold weeklyEffect. case_match; [| apply grows_upd].
  unfold fetchWeeklyForecast. eapply grows_trans; [| apply grows_issue].
  do 2 (eapply grows_trans; [| apply grows_upd]). apply grows_refl.
Qed.

Lemma render_grows env w : grows w (render env w).
Proof.
  unfold render.
  assert (G : ∀ v, grows w v → grows w (remember (units (app w)) (weeklyDepsOf (app w)) v))
    by (intros v [Hn Hs]; by split).
  apply G. repeat case_match;
    repeat first [ apply grows_refl
                 | eapply grows_trans; [| apply weeklyEffect_grows]
                 | (unfold replayEffect; case_match;
                    [apply fetchWeather_grows | apply grows_refl]) ].
Qed.

Lemma grows_bound w w' : grows w w' → inFlightBound w → inFlightBound w'.
Proof.
  intros [[new E] S] H. unfold inFlightBound in *. rewrite S, E, length_app.
  eapply Forall_impl; [exact H |]. simpl. lia.
Qed.

Lemma grows_pending w w' id call :
  grows w w' → pending w id = Some call → pending w' id = Some call.
Proof.
  intros [[new E] S]. unfold pending. rewrite S, E.
  case_decide; [done |]. intros Hl. by apply lookup_app_l_Some.
Qed.

Lemma pending_bound w id call : pending w id = Some call → id < length (net w).
Proof.
  unfold pending. case_decide; [done |]. apply lookup_lt_Some.
Qed.

Lemma markSettled_bound w id call :
  pending w id = Some call → inFlightBound w → inFlightBound (markSettled id w).
Proof.
  intros Hp H. apply Forall_cons.
  split; [exact (pending_bound w id call Hp) | exact H].
Qed.

Lemma step_bound env w e w' :
  step env w e = Some w' → inFlightBound w → inFlightBound w'.
Proof.
  intros H Hb. step_cases H e; (eapply grows_bound; [apply render_grows |]).
  - done.
  - unfold onSubmit. case_match; [done |].
    eapply grows_bound; [apply fetchWeather_grows | done].
  - unfold onUseLocation. by repeat case_match.
  - unfold onPosition. eapply grows_bound; [apply fetchWeather_grows | done].
  - done.
  - done.
  - unfold weatherResumes.
    assert (inFlightBound (markSettled id w)) by by eapply markSettled_bound.
    by case_match.
  - unfold forecastResumes.
    assert (inFlightBound (markSettled id w)) by by eapply markSettled_bound.
    by case_match.
Qed.

Lemma mount_bound env : inFlightBound (mount env).
Proof.
  unfold mount. eapply grows_bound; [apply render_grows |]. by apply Forall_nil.
Qed.

Lemma reachable_bound env w : reachable env w → inFlightBound w.
Proof.
  induction 1 as [|w e w' _ IH Hstep]; [apply mount_bound |].
  by eapply step_bound.
Qed.

(** A request issued now is in flight. *)
Lemma issue_pending call w :
  inFlightBound w → pending (issue call w) (length (net w)) = Some call.
Proof.
  intros H. unfold pending. simpl. rewrite decide_False.
  - by rewrite lookup_app_r, Nat.sub_diag.
  - intros Hin. unfold inFlightBound in H. rewrite Forall_forall in H.
    apply H in Hin. lia.
Qed.

(** ** Missing credential *)

Lemma render_dormant env w : dormant w → dormant (render env w).
Proof.
  intros (Hn & Hd & Hl). unfold render, replayEffect, weeklyEffect.
  rewrite Hl, Hd. simpl. unfold dormant. by repeat case_match.
Qed.

Lemma step_dormant env w e w' :
  truthy (apiKey env) = false → step env w e = Some w' → dormant w → dormant w'.
Proof.
  intros Hk H Hd.
  assert (Hp : ∀ id, pending w id = None).
  { intros id. unfold pending. destruct Hd as (-> & _). by case_decide. }
  step_cases H e; try (rewrite Hp in *; discriminate); apply render_dormant.
  - done.
  - unfold onSubmit. case_match; [done |]. by rewrite fetchWeather_unconfigured.
  - unfold onUseLocation. by repeat case_match.
  - unfold onPosition. by rewrite fetchWeather_unconfigured.
  - done.
  - done.
Qed.

Lemma reachable_dormant env w :
  truthy (apiKey env) = false → reachable env w → dormant w.
Proof.
  intros Hk. induction 1 as [|w e w' _ IH Hstep].
  - by apply render_dormant.
  - by eapply step_dormant.
Qed.

(** Whoever remembers a request has a credential. *)
Lemma reachable_lastRequest env w request :
  reachable env w → lastRequest (app w) = Some request →
  ∃ key, apiKey env = Some key ∧ nonEmpty key = true.
Proof.
  intros Hr Hl. apply truthy_Some. destruct (truthy (apiKey env)) eqn:E; [done |].
  destruct (reachable_dormant env w E Hr) as (_ & _ & Hnone). congruence.
Qed.

(** C3. Without a configured credential (absent or empty), for every
    request and unit system, [fetchWeather] only reports the configuration
    error: the log of network calls is unchanged, and so are the loading
    flag, the stored conditions, the last-request memory and the forecast
    cells, so the check precedes every other effect; the component as a
    whole never issues a network call. *)
Theorem missing_credential_no_request (env : Env) :
  truthy (apiKey env) = false →
  (∀ u request w,
     error (app (fetchWeather env u request w))
       = lit "Add VITE_OPENWEATHER_API_KEY to a .env file to fetch data."
     ∧ net (fetchWeather env u request w) = net w
     ∧ loading (app (fetchWeather env u request w)) = loading (app w)
     ∧ data (app (fetchWeather env u request w)) = data (app w)
     ∧ lastRequest (app (fetchWeather env u request w)) = lastRequest (app w)
     ∧ forecastSide (app (fetchWeather env u request w)) = forecastSide (app w)
     ∧ fetchWeather env u request w
       = upd (setError (lit "Add VITE_OPENWEATHER_API_KEY to a .env file to fetch data.")) w)
  ∧ (∀ w, reachable env w → net w = []).
Proof.
  intros Hk. split.
  - intros u request w. rewrite fetchWeather_unconfigured by done. by split_and!.
  - intros w Hr. by destruct (reachable_dormant env w Hk Hr).
Qed.

(** ** Search *)

Lemma trimStart_blank (s : jsstring) :
  Forall (λ c, isWhiteSpace c = true) s → trimStart s = [].
Proof. induction 1 as [|c s Hc _ IH]; simpl; [done | by rewrite Hc]. Qed.

Lemma trim_blank (s : jsstring) :
  Forall (λ c, isWhiteSpace c = true) s → trim s = [].
Proof. intros H. unfold trim. by rewrite trimStart_blank. Qed.

(** [trimStart] removes a run of white space and stops at the first
    other code unit. *)
Lemma trimStart_spec (s : jsstring) :
  ∃ pre, s = pre ++ trimStart s
    ∧ Forall (λ c, isWhiteSpace c = true) pre
    ∧ (∀ c rest, trimStart s = c :: rest → isWhiteSpace c = false).
Proof.
  induction s as [|c s (pre & E & Hpre & Hhd)]; simpl.
  - exists []. by split_and!.
  - destruct (isWhiteSpace c) eqn:Hc.
    + exists (c :: pre). split_and!; [simpl; congruence | by constructor | done].
    + exists []. split_and!; [done | done |]. by intros ? ? [= <- _].
Qed.

(** [trim] keeps the middle of the text: what it removes on both sides
    is white space, and what it keeps neither starts nor ends with it. *)
Lemma trim_spec (s : jsstring) :
  ∃ pre post, s = pre ++ trim s ++ post
    ∧ Forall (λ c, isWhiteSpace c = true) pre
    ∧ Forall (λ c, isWhiteSpace c = true) post
    ∧ (∀ c rest, trim s = c :: rest → isWhiteSpace c = false)
    ∧ (∀ c rest, trim s = rest ++ [c] → isWhiteSpace c = false).
Proof.
  destruct (trimStart_spec s) as (pre & E1 & Hpre & Hhd).
  destruct (trimStart_spec (reverse (trimStart s))) as (post & E2 & Hpost & Htl).
  unfold trim, trimEnd.
  set (core := trimStart (reverse (trimStart s))) in *.
  assert (E3 : trimStart s = reverse core ++ reverse post).
  { by rewrite <- reverse_app, <- E2, reverse_involutive. }
  exists pre, (reverse post). split_and!.
  - by rewrite <- E3.
  - done.
  - by apply Forall_reverse.
  - intros c rest Hc. destruct core as [|d core'] using rev_ind.
    + done.
    + rewrite reverse_snoc in Hc. injection Hc as -> _.
      rewrite reverse_snoc in E3. simpl in E3. by eapply Hhd.
  - intros c rest Hc. apply (f_equal reverse) in Hc.
    rewrite reverse_involutive, reverse_snoc in Hc. by eapply Htl.
Qed.

Lemma nonEmpty_false (s : jsstring) : nonEmpty s = false ↔ s = [].
Proof. by destruct s. Qed.

Lemma weatherParams_city key u (text : jsstring) :
  text ≠ [] →
  weatherParams key u {| city := Some text; lat := None; lon := None |}
  = [ (lit "appid", Text key); (lit "units", Text (unitsText u));
      (lit "q", Text text) ].
Proof. intros H. unfold weatherParams. simpl. by destruct text. Qed.

(** C6. Submitting the search form: when the text is empty after
    trimming, in particular when it is all white space, the handler only
    reports the validation error and calls nothing; otherwise it calls
    [fetchWeather] with the city request whose name is exactly the trimmed
    text, which with a credential issues that one request to Provider A
    and remembers it. *)
Theorem search_submit (env : Env) (w : World) :
  (trim (query (app w)) = [] →
     onSubmit env w = upd (setError (lit "Enter a city name to search.")) w
     ∧ error (app (onSubmit env w)) = lit "Enter a city name to search."
     ∧ net (onSubmit env w) = net w
     ∧ lastRequest (app (onSubmit env w)) = lastRequest (app w)
     ∧ loading (app (onSubmit env w)) = loading (app w))
  ∧ (Forall (λ c, isWhiteSpace c = true) (query (app w)) →
     trim (query (app w)) = [])
  ∧ (trim (query (app w)) ≠ [] →
     onSubmit env w
     = fetchWeather env (units (app w))
         {| city := Some (trim (query (app w))); lat := None; lon := None |} w)
  ∧ (trim (query (app w)) ≠ [] →
     ∀ key, apiKey env = Some key → nonEmpty key = true →
       net (onSubmit env w)
       = net w ++ [ {| endpoint := OpenWeather;
                       params := [ (lit "appid", Text key);
                                   (lit "units", Text (unitsText (units (app w))));
                                   (lit "q", Text (trim (query (app w)))) ] |} ]
       ∧ lastRequest (app (onSubmit env w))
         = Some {| city := Some (trim (query (app w))); lat := None; lon := None |}
       ∧ loading (app (onSubmit env w)) = true).
Proof.
  split_and!.
  - intros E. unfold onSubmit. by rewrite E.
  - apply trim_blank.
  - intros E. unfold onSubmit. by destruct (trim (query (app w))).
  - intros E key Hk Hn. unfold onSubmit.
    destruct (nonEmpty (trim (query (app w)))) eqn:Ht.
    + simpl. rewrite (fetchWeather_configured env key) by done.
      by rewrite weatherParams_city.
    + by apply nonEmpty_false in Ht.
Qed.

(** ** The forecast pipeline *)

Lemma at_index_None {A : Type} (field : option (list A)) (index : nat) :
  at_index field index = None
  ↔ field = None ∨ ∃ a, field = Some a ∧ length a ≤ index.
Proof.
  unfold at_index. destruct field as [a|]; simpl.
  - rewrite lookup_ge_None. split; [intros H; right; by exists a |].
    by intros [? | (? & [= <-] & ?)].
  - split; [by left | done].
Qed.

Lemma forecastResumes_currentSide r w :
  currentSide (app (forecastResumes r w)) = currentSide (app w)
  ∧ units (app (forecastResumes r w)) = units (app w)
  ∧ replayDeps (forecastResumes r w) = replayDeps w
  ∧ weeklyDeps (forecastResumes r w) = weeklyDeps w
  ∧ net (forecastResumes r w) = net w.
Proof. unfold forecastResumes. by case_match. Qed.

Lemma forecastResumes_synced r id w :
  synced w → synced (forecastResumes r (markSettled id w)).
Proof.
  intros [H1 H2]. unfold forecastResumes, synced, weeklyDepsOf in *.
  by case_match.
Qed.

(** A forecast request in flight can settle, and the commit that follows
    runs no effect. *)
Lemma forecast_settles env w id r call :
  reachable env w → pending w id = Some call → endpoint call = OpenMeteo →
  step env w (ForecastSettled id r) = Some (forecastResumes r (markSettled id w)).
Proof.
  intros Hr Hp He. rewrite (step_forecast_settles env w id r call) by done.
  f_equal. apply render_id, forecastResumes_synced. by eapply reachable_synced.
Qed.

Lemma dailyTimes_Some body d t :
  dailyTimes body = Some (d, t) ↔ daily body = Some d ∧ time d = Some t ∧ t ≠ [].
Proof.
  unfold dailyTimes. destruct (daily body) as [d'|]; simpl; [| naive_solver].
  destruct (d'.(time)) as [t'|] eqn:Et; simpl; [| naive_solver].
  destruct t' as [|x t']; simpl; naive_solver.
Qed.

Lemma dailyTimes_None body :
  dailyTimes body = None
  ↔ daily body = None
    ∨ ∃ d, daily body = Some d ∧ (time d = None ∨ time d = Some []).
Proof.
  unfold dailyTimes. destruct (daily body) as [d'|]; simpl; [| naive_solver].
  destruct (d'.(time)) as [t'|] eqn:Et; simpl; [| naive_solver].
  destruct t' as [|x t']; simpl; naive_solver.
Qed.

Lemma forecastTry_nonempty r days : forecastTry r = inr days → days ≠ [].
Proof.
  unfold forecastTry. destruct r as [err | response]; [done |].
  destruct (negb (ok response)); [done |].
  destruct (json response) as [err | body]; [done |].
  destruct (dailyTimes body) as [[d t] |] eqn:E; [| done].
  apply dailyTimes_Some in E as (_ & _ & Hne). intros [= <-] E.
  apply (f_equal length) in E. rewrite length_imap in E. by destruct t.
Qed.

Lemma fetchWeather_weekly env u request w :
  weekly (app (fetchWeather env u request w)) = weekly (app w).
Proof.
  pose proof (fetchWeather_forecastSide env u request w) as H.
  by injection H.
Qed.

(** A commit keeps the stored forecast or empties it. *)
Lemma render_weekly env w :
  weekly (app (render env w)) = weekly (app w)
  ∨ weekly (app (render env w)) = None.
Proof.
  unfold render, replayEffect, weeklyEffect. simpl.
  repeat case_match; simpl; rewrite ?fetchWeather_weekly; auto.
Qed.

Lemma step_weekly_nonempty env w e w' :
  step env w e = Some w' → weekly (app w) ≠ Some [] → weekly (app w') ≠ Some [].
Proof.
  intros H Hne.
  step_cases H e;
    match goal with |- weekly (app (render env ?v)) ≠ _ =>
      destruct (render_weekly env v) as [-> | ->]; [| done] end.
  - done.
  - unfold onSubmit. case_match; [done | by rewrite fetchWeather_weekly].
  - unfold onUseLocation. by repeat case_match.
  - unfold onPosition. by rewrite fetchWeather_weekly.
  - done.
  - done.
  - unfold weatherResumes. by case_match.
  - unfold forecastResumes. destruct (forecastTry r) as [err | days] eqn:E; simpl.
    + done.
    + intros [= ->]. by eapply forecastTry_nonempty.
Qed.

Lemma reachable_weekly_nonempty env w : reachable env w → weekly (app w) ≠ Some [].
Proof.
  induction 1 as [|w e w' _ IH Hstep].
  - unfold mount. match goal with |- weekly (app (render env ?v)) ≠ _ =>
      destruct (render_weekly env v) as [-> | ->]; done end.
  - by eapply step_weekly_nonempty.
Qed.

(** C5. When the response of Provider B is not a success, or is a success
    whose body has no [daily], no [daily.time] or an empty one, the
    forecast fetch ends in an error: the message is the fixed one of the
    case (for the missing or empty series "Weekly forecast data is
    unavailable."), no forecast is stored and the panel shows the error;
    and no run of the component ever stores an empty forecast. *)
Theorem forecast_unavailable (env : Env) :
  (∀ w id call response,
     reachable env w → pending w id = Some call → endpoint call = OpenMeteo →
     (ok response = false
      ∨ ok response = true
        ∧ ∃ body, json response = inr body
            ∧ (daily body = None
               ∨ ∃ d, daily body = Some d ∧ (time d = None ∨ time d = Some []))) →
     ∃ w', step env w (ForecastSettled id (inr response)) = Some w'
       ∧ weeklyError (app w')
         = (if ok response then lit "Weekly forecast data is unavailable."
            else lit "Unable to fetch the weekly forecast.")
       ∧ weekly (app w') = None
       ∧ weeklyLoading (app w') = false
       ∧ forecastState (app w') = Failed (weeklyError (app w')))
  ∧ (∀ w, reachable env w → weekly (app w) ≠ Some []).
Proof.
  split; [| apply reachable_weekly_nonempty].
  intros w id call response Hr Hp He Hcase.
  eexists. split; [by eapply forecast_settles |].
  unfold forecastResumes, forecastTry.
  destruct Hcase as [-> | (-> & body & -> & Hd)]; simpl; [done |].
  apply dailyTimes_None in Hd. by rewrite Hd.
Qed.

(** C7. When a successful response of Provider B with a non-empty
    [daily.time] settles, the stored forecast has one entry per element of
    [daily.time], in order; the entry of an index takes its date from
    [daily.time]; its weather code and its two temperatures are the ones
    at that index, and 0 where the array is absent or too short; its UV
    maximum, sunrise and sunset are the ones at that index and stay absent
    where the array is absent or too short. *)
Theorem forecast_days (env : Env) (w : World) id call response body d t :
  reachable env w → pending w id = Some call → endpoint call = OpenMeteo →
  ok response = true → json response = inr body →
  daily body = Some d → time d = Some t → t ≠ [] →
  ∃ w' days,
    step env w (ForecastSettled id (inr response)) = Some w'
    ∧ weekly (app w') = Some days
    ∧ length days = length t
    ∧ ∀ index dt, t !! index = Some dt →
      ∃ day, days !! index = Some day
        ∧ date day = dt
        ∧ (at_index (weathercode d) index = None → code day = 0%Q)
        ∧ (∀ v, at_index (weathercode d) index = Some v → code day = v)
        ∧ (at_index (temperature_2m_max d) index = None → tempMax day = 0%Q)
        ∧ (∀ v, at_index (temperature_2m_max d) index = Some v → tempMax day = v)
        ∧ (at_index (temperature_2m_min d) index = None → tempMin day = 0%Q)
        ∧ (∀ v, at_index (temperature_2m_min d) index = Some v → tempMin day = v)
        ∧ uvMax day = at_index (uv_index_max d) index
        ∧ sunrise day = at_index (daily_sunrise d) index
        ∧ sunset day = at_index (daily_sunset d) index.
Proof.
  intros Hr Hp He Hok Hj Hd Ht Hne.
  assert (Hdt : dailyTimes body = Some (d, t)) by by apply dailyTimes_Some.
  exists (forecastResumes (inr response) (markSettled id w)), (imap (forecastDay d) t).
  split; [by eapply forecast_settles |].
  split; [unfold forecastResumes, forecastTry; by rewrite Hok, Hj, Hdt |].
  split; [apply length_imap |].
  intros index dt Hi. exists (forecastDay d index dt).
  split; [by rewrite list_lookup_imap, Hi |]. simpl.
  split_and!; try done; intros; by match goal with H : at_index _ _ = _ |- _ => rewrite H end.
Qed.

(** ** The current-conditions pipeline *)

Lemma weatherResumes_frame r w :
  forecastSide (app (weatherResumes r w)) = forecastSide (app w)
  ∧ units (app (weatherResumes r w)) = units (app w)
  ∧ lastRequest (app (weatherResumes r w)) = lastRequest (app w)
  ∧ replayDeps (weatherResumes r w) = replayDeps w
  ∧ weeklyDeps (weatherResumes r w) = weeklyDeps w
  ∧ net (weatherResumes r w) = net w
  ∧ settled (weatherResumes r w) = settled w.
Proof. unfold weatherResumes. by case_match. Qed.

Lemma weatherResumes_currentSide r w :
  data (app (weatherResumes r w)) = storedData r
  ∧ loading (app (weatherResumes r w)) = false
  ∧ error (app (weatherResumes r w))
    = match weatherTry r with
      | inl err => caughtMessage err
      | inr _ => error (app w)
      end.
Proof. unfold weatherResumes, storedData. by case_match. Qed.

(** A current-conditions request in flight can settle; the commit that
    follows runs at most the weekly effect. *)
Lemma weather_settles env w id r call :
  synced w → pending w id = Some call → endpoint call = OpenWeather →
  ∃ w', step env w (WeatherSettled id r) = Some w'
    ∧ w' = render env (weatherResumes r (markSettled id w))
    ∧ data (app w') = storedData r
    ∧ loading (app w') = false
    ∧ error (app w')
      = match weatherTry r with
        | inl err => caughtMessage err
        | inr _ => error (app w)
        end
    ∧ lastRequest (app w') = lastRequest (app w)
    ∧ units (app w') = units (app w)
    ∧ grows (markSettled id w) w'.
Proof.
  intros [H1 H2] Hp He. eexists. split; [by eapply step_weather_settles |].
  split; [done |].
  destruct (weatherResumes_frame r (markSettled id w))
    as (_ & Eu & El & Er & _ & En & Es).
  destruct (weatherResumes_currentSide r (markSettled id w)) as (Ed & Elo & Ee).
  assert (Hc : currentSide (app (render env (weatherResumes r (markSettled id w))))
               = currentSide (app (weatherResumes r (markSettled id w)))).
  { apply render_quiet_currentSide. by rewrite Er, Eu. }
  unfold currentSide in Hc.
  apply pair_equal_spec in Hc as [Hc Hc4]. apply pair_equal_spec in Hc as [Hc Hc3].
  apply pair_equal_spec in Hc as [Hc1 Hc2].
  split_and!.
  - by rewrite Hc1.
  - by rewrite Hc2.
  - by rewrite Hc3.
  - by rewrite Hc4.
  - by rewrite render_units, Eu.
  - eapply grows_trans; [| apply render_grows].
    split; [exists []; by rewrite En, app_nil_r | done].
Qed.

Lemma pending_markSettled w id id' call :
  pending w id = Some call → id ≠ id' → pending (markSettled id' w) id = Some call.
Proof.
  unfold pending. simpl. intros H Hne. case_decide as Hin; [done |].
  rewrite decide_False; [done |]. rewrite elem_of_cons. naive_solver.
Qed.

Lemma step_weather_other env w id id' r w' call :
  step env w (WeatherSettled id' r) = Some w' →
  pending w id = Some call → id ≠ id' → pending w' id = Some call.
Proof.
  intros H Hp Hne. apply step_inv in H as (v & -> & (_ & _ & _ & ->)).
  eapply grows_pending; [apply render_grows |].
  eapply grows_pending; [| by apply pending_markSettled].
  destruct (weatherResumes_frame r (markSettled id' w)) as (_ & _ & _ & _ & _ & En & Es).
  split; [exists []; by rewrite En, app_nil_r | done].
Qed.

(** Two requests started one after the other are both in flight, under
    consecutive indices. *)
Lemma fetchWeather_twice env key w uA uB reqA reqB :
  apiKey env = Some key → nonEmpty key = true → synced w → inFlightBound w →
  let started := fetchWeather env uB reqB (fetchWeather env uA reqA w) in
  synced started
  ∧ net started
    = net w ++ [ {| endpoint := OpenWeather; params := weatherParams key uA reqA |};
                 {| endpoint := OpenWeather; params := weatherParams key uB reqB |} ]
  ∧ pending started (length (net w))
    = Some {| endpoint := OpenWeather; params := weatherParams key uA reqA |}
  ∧ pending started (S (length (net w)))
    = Some {| endpoint := OpenWeather; params := weatherParams key uB reqB |}
  ∧ lastRequest (app started) = Some reqB
  ∧ error (app started) = [].
Proof.
  intros Hk Hn Hs Hb started.
  set (callA := {| endpoint := OpenWeather; params := weatherParams key uA reqA |}).
  set (callB := {| endpoint := OpenWeather; params := weatherParams key uB reqB |}).
  assert (HbA : inFlightBound (fetchWeather env uA reqA w))
    by (eapply grows_bound; [apply fetchWeather_grows | done]).
  assert (HpA : pending (fetchWeather env uA reqA w) (length (net w)) = Some callA).
  { rewrite (fetchWeather_configured env key) by done.
    exact (issue_pending callA
             (upd (setLastRequest reqA) (upd (setError []) (upd (setLoading true) w)))
             Hb). }
  assert (EnA : net (fetchWeather env uA reqA w) = net w ++ [callA])
    by by rewrite (fetchWeather_configured env key).
  split_and!.
  - by do 2 apply fetchWeather_synced.
  - subst started. rewrite (fetchWeather_configured env key _ reqB) by done.
    simpl. by rewrite EnA, <- app_assoc.
  - eapply grows_pending; [apply fetchWeather_grows | done].
  - subst started. rewrite (fetchWeather_configured env key _ reqB) by done.
    replace (S (length (net w))) with (length (net (fetchWeather env uA reqA w)))
      by (rewrite EnA, length_app; simpl; lia).
    exact (issue_pending callB
             (upd (setLastRequest reqB) (upd (setError [])
                (upd (setLoading true) (fetchWeather env uA reqA w))))
             HbA).
  - subst started. by rewrite (fetchWeather_configured env key _ reqB).
  - subst started. by rewrite (fetchWeather_configured env key _ reqB).
Qed.

(** C1, as the code has it. Let [fetchWeather] be called for A and then
    for B while A is in flight, and let B settle first and A afterwards.
    Then the last-request memory names B, but the stored conditions are
    the ones A settled to: the continuation of a request writes its
    outcome whenever it runs, nothing compares it with the request
    started last. *)
Theorem last_settled_wins (env : Env) (w : World) key uA uB reqA reqB rA rB :
  reachable env w → apiKey env = Some key → nonEmpty key = true →
  let started := fetchWeather env uB reqB (fetchWeather env uA reqA w) in
  net started
  = net w ++ [ {| endpoint := OpenWeather; params := weatherParams key uA reqA |};
               {| endpoint := OpenWeather; params := weatherParams key uB reqB |} ]
  ∧ ∃ w1 w2,
      step env started (WeatherSettled (S (length (net w))) rB) = Some w1
      ∧ step env w1 (WeatherSettled (length (net w)) rA) = Some w2
      ∧ lastRequest (app w2) = Some reqB
      ∧ data (app w2) = storedData rA
      ∧ loading (app w2) = false
      ∧ error (app w2)
        = match weatherTry rA, weatherTry rB with
          | inl err, _ => caughtMessage err
          | inr _, inl err => caughtMessage err
          | inr _, inr _ => []
          end.
Proof.
  intros Hr Hk Hn started.
  destruct (fetchWeather_twice env key w uA uB reqA reqB Hk Hn
              (reachable_synced env w Hr) (reachable_bound env w Hr))
    as (Hs & Enet & HpA & HpB & Hlast & Herr).
  fold started in Hs, Enet, HpA, HpB, Hlast, Herr.
  split; [done |].
  destruct (weather_settles env started (S (length (net w))) rB _ Hs HpB eq_refl)
    as (w1 & Hstep1 & _ & _ & _ & He1 & Hq1 & _ & _).
  assert (HpA1 : pending w1 (length (net w))
                 = Some {| endpoint := OpenWeather; params := weatherParams key uA reqA |}).
  { eapply step_weather_other; [exact Hstep1 | exact HpA | lia]. }
  destruct (weather_settles env w1 (length (net w)) rA _
              (step_synced _ _ _ _ Hstep1) HpA1 eq_refl)
    as (w2 & Hstep2 & _ & Hd2 & Hl2 & He2 & Hq2 & _ & _).
  exists w1, w2. split_and!; try done.
  - by rewrite Hq2, Hq1.
  - rewrite He2. destruct (weatherTry rA); [done |].
    rewrite He1. destruct (weatherTry rB); [done |]. exact Herr.
Qed.

(** ** Failures on one side and the other *)

(** A failed current-conditions fetch empties [data]; when coordinates
    were stored the weekly effect then runs and empties the forecast. *)
Lemma weather_failure_weekly env w id r call err :
  synced w → pending w id = Some call → endpoint call = OpenWeather →
  weatherTry r = inl err →
  ∃ w', step env w (WeatherSettled id r) = Some w'
    ∧ weeklyLoading (app w') = weeklyLoading (app w)
    ∧ weeklyError (app w') = weeklyError (app w)
    ∧ weekly (app w')
      = match data (app w) ≫= coord with
        | Some _ => None
        | None => weekly (app w)
        end.
Proof.
  intros [H1 H2] Hp He Ht. eexists. split; [by eapply step_weather_settles |].
  rewrite render_quiet
    by (by destruct (weatherResumes_frame r (markSettled id w))
             as (_ & -> & _ & -> & _)).
  unfold weeklyDepsChanged, weatherResumes. rewrite Ht. simpl. rewrite H2.
  unfold weeklyDepsOf, sameWeeklyDeps, weeklyEffect. simpl.
  destruct (data (app w) ≫= coord) as [c|]; simpl; [done |].
  by rewrite bool_decide_eq_true_2.
Qed.

(** C2, as the code has it. A forecast fetch that ends in error leaves
    the current-conditions cells as they were. A current-conditions fetch
    that ends in error leaves the loading flag and the error of the
    forecast as they were, and the stored forecast too when no conditions
    with coordinates were stored; when they were, the weekly effect
    empties the stored forecast. *)
Theorem failure_frames (env : Env) (w : World) id call :
  reachable env w → pending w id = Some call →
  (endpoint call = OpenMeteo →
     ∀ r err, forecastTry r = inl err →
       ∃ w', step env w (ForecastSettled id r) = Some w'
         ∧ weeklyError (app w') = caughtMessage err
         ∧ data (app w') = data (app w)
         ∧ loading (app w') = loading (app w)
         ∧ error (app w') = error (app w))
  ∧ (endpoint call = OpenWeather →
     ∀ r err, weatherTry r = inl err →
       ∃ w', step env w (WeatherSettled id r) = Some w'
         ∧ error (app w') = caughtMessage err
         ∧ weeklyLoading (app w') = weeklyLoading (app w)
         ∧ weeklyError (app w') = weeklyError (app w)
         ∧ weekly (app w')
           = match data (app w) ≫= coord with
             | Some _ => None
             | None => weekly (app w)
             end).
Proof.
  intros Hr Hp. pose proof (reachable_synced env w Hr) as Hs. split.
  - intros He r err Ht. eexists. split; [by eapply forecast_settles |].
    unfold forecastResumes. by rewrite Ht.
  - intros He r err Ht.
    destruct (weather_failure_weekly env w id r call err Hs Hp He Ht)
      as (w' & Hstep & Hl & Hwe & Hw).
    destruct (weather_settles env w id r call Hs Hp He)
      as (w'' & Hstep' & _ & _ & _ & Herr & _).
    rewrite Hstep in Hstep'. injection Hstep' as <-.
    exists w'. rewrite Ht in Herr. by split_and!.
Qed.

(** ** The unit toggle *)

Lemma sameWeeklyDeps_units a b u : sameWeeklyDeps (a, b, u) (a, b, flipped u) = false.
Proof.
  unfold sameWeeklyDeps. simpl. rewrite bool_decide_eq_false_2; [| by destruct u].
  by rewrite andb_false_r.
Qed.

Lemma toggleUnits_units w : units (app (toggleUnits w)) = flipped (units (app w)).
Proof. simpl. by destruct (units (app w)). Qed.

Lemma flipped_ne u : u ≠ flipped u.
Proof. by destruct u. Qed.

Lemma flipped_involutive u : flipped (flipped u) = u.
Proof. by destruct u. Qed.

(** After a toggle both effects run. *)
Lemma toggle_render env w :
  synced w →
  render env (toggleUnits w)
  = remember (flipped (units (app w)))
      (weeklyDepsOf (app (toggleUnits w)))
      (weeklyEffect (app (toggleUnits w))
         (replayEffect env (flipped (units (app w))) (toggleUnits w))).
Proof.
  intros [H1 H2]. unfold render. rewrite toggleUnits_units.
  assert (replayDepsChanged (toggleUnits w) = true) as ->.
  { unfold replayDepsChanged. rewrite toggleUnits_units.
    change (replayDeps (toggleUnits w)) with (replayDeps w). rewrite H1.
    rewrite bool_decide_eq_false_2; [done | apply flipped_ne]. }
  assert (weeklyDepsChanged (toggleUnits w) = true) as ->; [| done].
  unfold weeklyDepsChanged.
  change (weeklyDeps (toggleUnits w)) with (weeklyDeps w). rewrite H2.
  unfold weeklyDepsOf. rewrite toggleUnits_units.
  change (data (app (toggleUnits w))) with (data (app w)).
  by rewrite sameWeeklyDeps_units.
Qed.

(** A toggle with a remembered request: the replay effect issues the
    request again with the new unit system, then the weekly effect issues
    the forecast request of the stored coordinates, if any. *)
Lemma toggle_replays env w key request :
  synced w → apiKey env = Some key → nonEmpty key = true →
  lastRequest (app w) = Some request →
  ∃ w', step env w ToggleUnits = Some w'
    ∧ units (app w') = flipped (units (app w))
    ∧ net w'
      = net w
        ++ [ {| endpoint := OpenWeather;
                params := weatherParams key (flipped (units (app w))) request |} ]
        ++ forecastCascade (flipped (units (app w))) (data (app w))
    ∧ settled w' = settled w
    ∧ lastRequest (app w') = Some request
    ∧ data (app w') = data (app w).
Proof.
  intros Hs Hk Hn Hl. eexists. split; [reflexivity |].
  rewrite toggle_render by done. unfold replayEffect.
  change (lastRequest (app (toggleUnits w))) with (lastRequest (app w)).
  rewrite Hl, (fetchWeather_configured env key) by done.
  unfold weeklyEffect, forecastCascade.
  change (data (app (toggleUnits w))) with (data (app w)).
  rewrite toggleUnits_units.
  destruct (data (app w) ≫= coord) as [c|]; simpl;
    rewrite <- ?app_assoc; split_and!; try done;
    apply (toggleUnits_units w).
Qed.

Lemma weatherCalls_app w l :
  filter (λ c, endpoint c = OpenWeather) (net w ++ l)
  = weatherCalls w ++ filter (λ c, endpoint c = OpenWeather) l.
Proof. unfold weatherCalls. by rewrite filter_app. Qed.

Lemma forecastCascade_weather u stored :
  filter (λ c, endpoint c = OpenWeather) (forecastCascade u stored) = [].
Proof. unfold forecastCascade. by destruct (stored ≫= coord). Qed.

Lemma weatherParams_units key u request :
  params_get (lit "units") (weatherParams key u request) = Some (Text (unitsText u)).
Proof.
  destruct request as [[[|c l]|] [la|] [lo|]]; reflexivity.
Qed.

Lemma forecastParams_temperature_unit u la lo :
  params_get (lit "temperature_unit") (forecastParams u la lo)
  = Some (Text (match u with imperial => lit "fahrenheit" | metric => lit "celsius" end)).
Proof. by destruct u. Qed.

(** C8. Toggling twice restores the unit system, whatever it was. With a
    remembered request, each of the two toggles makes exactly one new call
    to Provider A, for the remembered request and with the unit system
    the toggle has just set; the forecast request a toggle cascades into
    asks for fahrenheit when that unit system is imperial and for celsius
    otherwise. *)
Theorem toggle_twice (env : Env) :
  (∀ w, units (app (toggleUnits (toggleUnits w))) = units (app w))
  ∧ (∀ w request,
       reachable env w → lastRequest (app w) = Some request →
       ∃ key w1 w2,
         apiKey env = Some key
         ∧ step env w ToggleUnits = Some w1
         ∧ step env w1 ToggleUnits = Some w2
         ∧ units (app w1) ≠ units (app w)
         ∧ units (app w2) = units (app w)
         ∧ weatherCalls w1
           = weatherCalls w
             ++ [ {| endpoint := OpenWeather;
                     params := weatherParams key (units (app w1)) request |} ]
         ∧ weatherCalls w2
           = weatherCalls w1
             ++ [ {| endpoint := OpenWeather;
                     params := weatherParams key (units (app w2)) request |} ]
         ∧ net w2
           = net w
             ++ [ {| endpoint := OpenWeather;
                     params := weatherParams key (units (app w1)) request |} ]
             ++ forecastCascade (units (app w1)) (data (app w))
             ++ [ {| endpoint := OpenWeather;
                     params := weatherParams key (units (app w2)) request |} ]
             ++ forecastCascade (units (app w2)) (data (app w)))
  ∧ (∀ key u request,
       params_get (lit "units") (weatherParams key u request)
       = Some (Text (match u with imperial => lit "imperial" | metric => lit "metric" end)))
  ∧ (∀ u la lo,
       params_get (lit "temperature_unit") (forecastParams u la lo)
       = Some (Text (match u with
                     | imperial => lit "fahrenheit"
                     | metric => lit "celsius"
                     end))).
Proof.
  split_and!.
  - intros w. rewrite !toggleUnits_units. apply flipped_involutive.
  - intros w request Hr Hl.
    destruct (reachable_lastRequest env w request Hr Hl) as (key & Hk & Hn).
    destruct (toggle_replays env w key request (reachable_synced env w Hr) Hk Hn Hl)
      as (w1 & Hs1 & Hu1 & Hn1 & _ & Hl1 & Hd1).
    destruct (toggle_replays env w1 key request (step_synced _ _ _ _ Hs1) Hk Hn Hl1)
      as (w2 & Hs2 & Hu2 & Hn2 & _ & _ & _).
    rewrite <- Hu2, Hd1 in Hn2. rewrite <- Hu1 in Hn1.
    exists key, w1, w2. split_and!; try done.
    + rewrite Hu1. intros E. by apply (flipped_ne (units (app w))).
    + by rewrite Hu2, Hu1, flipped_involutive.
    + unfold weatherCalls at 1. rewrite Hn1, !weatherCalls_app.
      by rewrite filter_app, forecastCascade_weather, app_nil_r.
    + unfold weatherCalls at 1. rewrite Hn2, !weatherCalls_app.
      by rewrite filter_app, forecastCascade_weather, app_nil_r.
    + rewrite Hn2, Hn1. by rewrite <- !app_assoc.
  - intros key u request. rewrite weatherParams_units. by destruct u.
  - apply forecastParams_temperature_unit.
Qed.

(** ** The last-request memory *)

Lemma weeklyEffect_lastRequest s w :
  lastRequest (app (weeklyEffect s w)) = lastRequest (app w).
Proof. unfold weeklyEffect. by case_match. Qed.

(** No commit changes the memory: the replay effect writes back what it
    has just read. *)
Lemma render_lastRequest env w :
  lastRequest (app (render env w)) = lastRequest (app w).
Proof.
  assert (Hre : ∀ u, lastRequest (app (replayEffect env u w)) = lastRequest (app w)).
  { intros u. unfold replayEffect. destruct (lastRequest (app w)) as [request|] eqn:E.
    - destruct (fetchWeather_cases env u request w) as [(k & _ & _ & ->) | [_ ->]]; done.
    - done. }
  unfold render. simpl.
  repeat case_match; rewrite ?weeklyEffect_lastRequest, ?Hre; done.
Qed.

(** C9. With a credential, [fetchWeather] overwrites the last-request
    memory with its request as soon as it is called, while the request is
    still in flight, and no outcome of the request changes the memory
    afterwards; without a credential the memory is left as it was. So
    after a request that failed, a unit toggle replays that request, with
    the new unit system. *)
Theorem last_request_memory (env : Env) :
  (∀ key u request w,
     apiKey env = Some key → nonEmpty key = true →
     lastRequest (app (fetchWeather env u request w)) = Some request
     ∧ (inFlightBound w →
        pending (fetchWeather env u request w) (length (net w))
        = Some {| endpoint := OpenWeather; params := weatherParams key u request |}))
  ∧ (∀ w id r w',
       step env w (WeatherSettled id r) = Some w' →
       lastRequest (app w') = lastRequest (app w))
  ∧ (∀ u request w,
       truthy (apiKey env) = false →
       lastRequest (app (fetchWeather env u request w)) = lastRequest (app w))
  ∧ (∀ w key u request r err,
       reachable env w → apiKey env = Some key → nonEmpty key = true →
       weatherTry r = inl err →
       ∃ w1 w2,
         step env (fetchWeather env u request w) (WeatherSettled (length (net w)) r)
         = Some w1
         ∧ data (app w1) = None
         ∧ error (app w1) = caughtMessage err
         ∧ lastRequest (app w1) = Some request
         ∧ step env w1 ToggleUnits = Some w2
         ∧ weatherCalls w2
           = weatherCalls w1
             ++ [ {| endpoint := OpenWeather;
                     params := weatherParams key (units (app w2)) request |} ]).
Proof.
  split_and!.
  - intros key u request w Hk Hn.
    rewrite (fetchWeather_configured env key) by done. split; [done |].
    intros Hb.
    exact (issue_pending _
             (upd (setLastRequest request) (upd (setError []) (upd (setLoading true) w)))
             Hb).
  - intros w id r w' H. apply step_inv in H as (v & -> & (_ & _ & _ & ->)).
    rewrite render_lastRequest.
    by destruct (weatherResumes_frame r (markSettled id w)) as (_ & _ & -> & _).
  - intros u request w Hk. by rewrite fetchWeather_unconfigured.
  - intros w key u request r err Hr Hk Hn Ht.
    pose proof (reachable_synced env w Hr) as Hs.
    pose proof (reachable_bound env w Hr) as Hb.
    assert (Hp : pending (fetchWeather env u request w) (length (net w))
                 = Some {| endpoint := OpenWeather; params := weatherParams key u request |}).
    { rewrite (fetchWeather_configured env key) by done.
      exact (issue_pending _
               (upd (setLastRequest request) (upd (setError []) (upd (setLoading true) w)))
               Hb). }
    destruct (weather_settles env _ (length (net w)) r _
                (fetchWeather_synced env u request w Hs) Hp eq_refl)
      as (w1 & Hstep1 & _ & Hd1 & _ & He1 & Hl1 & _ & _).
    assert (Hl1' : lastRequest (app w1) = Some request).
    { rewrite Hl1. by rewrite (fetchWeather_configured env key). }
    destruct (toggle_replays env w1 key request (step_synced _ _ _ _ Hstep1) Hk Hn Hl1')
      as (w2 & Hstep2 & Hu2 & Hn2 & _ & _ & _).
    exists w1, w2. split_and!; try done.
    + rewrite Hd1. unfold storedData. by rewrite Ht.
    + rewrite He1. by rewrite Ht.
    + unfold weatherCalls at 1. rewrite Hn2, !weatherCalls_app, Hu2.
      by rewrite filter_app, forecastCascade_weather, app_nil_r.
Qed.

(** ** Concrete runs *)

Lemma run_reachable env w es w' :
  reachable env w → run env w es = Some w' → reachable env w'.
Proof.
  revert w. induction es as [|e es IH]; simpl; intros w Hr H.
  - by injection H as <-.
  - destruct (step env w e) as [v|] eqn:E; [| done]. simpl in H.
    eapply IH; [| exact H]. by eapply reachable_step.
Qed.

Lemma searching_reachable : reachable demoEnv searching.
Proof.
  apply (run_reachable demoEnv (mount demoEnv) [Change (lit " Oslo "); Submit]);
    [constructor | by vm_compute].
Qed.

Lemma forecasting_reachable : reachable demoEnv forecasting.
Proof.
  apply (run_reachable demoEnv (mount demoEnv)
           [Change (lit " Oslo "); Submit; WeatherSettled 0 (fulfilled oslo)]);
    [constructor | by vm_compute].
Qed.

Lemma refreshing_reachable : reachable demoEnv refreshing.
Proof.
  apply (run_reachable demoEnv (mount demoEnv)
           [Change (lit " Oslo "); Submit; WeatherSettled 0 (fulfilled oslo);
            ForecastSettled 1 week; Submit]);
    [constructor | by vm_compute].
Qed.

Example refreshing_state :
  data (app refreshing) = Some oslo
  ∧ weekly (app refreshing) = Some storedWeek
  ∧ loading (app refreshing) = true
  ∧ length (net refreshing) = 3
  ∧ settled refreshing = [1; 0].
Proof. by vm_compute. Qed.

(** C1 fails as stated: after the race the request started last is the
    one for Rome, yet the stored conditions are the ones of Oslo, the
    superseded request, and not the ones of Rome. *)
Lemma last_write_wins_fails :
  (λ w, (net w, lastRequest (app w), data (app w), loading (app w)))
    <$> run demoEnv (mount demoEnv) raceTrace
  = Some ([ {| endpoint := OpenWeather;
               params := weatherParams (lit "demo-key") metric (cityRequest "Oslo") |};
            {| endpoint := OpenWeather;
               params := weatherParams (lit "demo-key") metric (cityRequest "Rome") |};
            {| endpoint := OpenMeteo;
               params := forecastParams metric (4189 # 100) (1248 # 100) |};
            {| endpoint := OpenMeteo;
               params := forecastParams metric (5991 # 100) (1075 # 100) |} ],
          Some (cityRequest "Rome"), Some oslo, false)
  ∧ Some oslo ≠ Some rome.
Proof. split; [by vm_compute | discriminate]. Qed.

(** C2 fails as stated: with Oslo and its forecast stored, a
    current-conditions fetch that ends in error empties the stored
    forecast. *)
Lemma forecast_survives_failure_fails :
  weekly (app refreshing) = Some storedWeek
  ∧ pending refreshing 2
    = Some {| endpoint := OpenWeather;
              params := weatherParams (lit "demo-key") metric (cityRequest "Oslo") |}
  ∧ (λ w, (error (app w), data (app w), weekly (app w)))
      <$> step demoEnv refreshing (WeatherSettled 2 rejected)
    = Some (lit "Failed to fetch", None, None).
Proof. by vm_compute. Qed.

(** ** Instances *)

Lemma last_settled_wins_witness :
  reachable demoEnv (mount demoEnv)
  ∧ apiKey demoEnv = Some (lit "demo-key")
  ∧ nonEmpty (lit "demo-key") = true
  ∧ ∃ w1 w2,
      step demoEnv
        (fetchWeather demoEnv metric (cityRequest "Rome")
           (fetchWeather demoEnv metric (cityRequest "Oslo") (mount demoEnv)))
        (WeatherSettled 1 (fulfilled rome)) = Some w1
      ∧ step demoEnv w1 (WeatherSettled 0 (fulfilled oslo)) = Some w2
      ∧ lastRequest (app w2) = Some (cityRequest "Rome")
      ∧ data (app w2) = Some oslo.
Proof.
  split; [constructor |]. split; [reflexivity |]. split; [reflexivity |].
  destruct (last_settled_wins demoEnv (mount demoEnv) (lit "demo-key") metric metric
              (cityRequest "Oslo") (cityRequest "Rome") (fulfilled oslo) (fulfilled rome)
              (reachable_mount demoEnv) eq_refl eq_refl)
    as (_ & w1 & w2 & H1 & H2 & Hl & Hd & _).
  exists w1, w2. repeat split; assumption.
Defined.

Lemma failure_frames_witness :
  reachable demoEnv refreshing
  ∧ pending refreshing 2
    = Some {| endpoint := OpenWeather;
              params := weatherParams (lit "demo-key") metric (cityRequest "Oslo") |}
  ∧ ∃ w', step demoEnv refreshing (WeatherSettled 2 rejected) = Some w'
      ∧ error (app w') = lit "Failed to fetch"
      ∧ weeklyError (app w') = weeklyError (app refreshing)
      ∧ weekly (app w') = None.
Proof.
  split; [exact refreshing_reachable |]. split; [by vm_compute |].
  destruct (failure_frames demoEnv refreshing 2
              {| endpoint := OpenWeather;
                 params := weatherParams (lit "demo-key") metric (cityRequest "Oslo") |}
              refreshing_reachable ltac:(by vm_compute)) as [_ H].
  destruct (H eq_refl rejected (ErrorObj (lit "Failed to fetch")) eq_refl)
    as (w' & Hs & He & _ & Hwe & Hw).
  exists w'. repeat split; assumption.
Defined.

Lemma missing_credential_witness :
  truthy (apiKey noKeyEnv) = false
  ∧ error (app (fetchWeather noKeyEnv metric (cityRequest "Oslo") (mount noKeyEnv)))
    = lit "Add VITE_OPENWEATHER_API_KEY to a .env file to fetch data."
  ∧ net (fetchWeather noKeyEnv metric (cityRequest "Oslo") (mount noKeyEnv)) = [].
Proof.
  split; [reflexivity |].
  destruct (missing_credential_no_request noKeyEnv eq_refl) as [H Hnet].
  destruct (H metric (cityRequest "Oslo") (mount noKeyEnv)) as (He & Hn & _).
  split; [exact He |]. rewrite Hn. apply Hnet. constructor.
Defined.

Lemma forecast_unavailable_witness :
  reachable demoEnv forecasting
  ∧ pending forecasting 1
    = Some {| endpoint := OpenMeteo;
              params := forecastParams metric (5991 # 100) (1075 # 100) |}
  ∧ ∃ w', step demoEnv forecasting (ForecastSettled 1 (inr emptyWeek)) = Some w'
      ∧ weeklyError (app w') = lit "Weekly forecast data is unavailable."
      ∧ weekly (app w') = None
      ∧ forecastState (app w') = Failed (lit "Weekly forecast data is unavailable.").
Proof.
  split; [exact forecasting_reachable |]. split; [by vm_compute |].
  destruct (forecast_unavailable demoEnv) as [H _].
  destruct (H forecasting 1
              {| endpoint := OpenMeteo;
                 params := forecastParams metric (5991 # 100) (1075 # 100) |}
              emptyWeek forecasting_reachable ltac:(by vm_compute) eq_refl)
    as (w' & Hs & He & Hw & _ & Hf).
  - right. split; [reflexivity |]. eexists. split; [reflexivity |].
    right. eexists. split; [reflexivity |]. by right.
  - exists w'. simpl in He. rewrite He in Hf. repeat split; assumption.
Defined.

Lemma search_submit_witness :
  trim (query (app typed)) ≠ []
  ∧ apiKey demoEnv = Some (lit "demo-key")
  ∧ nonEmpty (lit "demo-key") = true
  ∧ net (onSubmit demoEnv typed)
    = [ {| endpoint := OpenWeather;
           params := [ (lit "appid", Text (lit "demo-key"));
                       (lit "units", Text (lit "metric"));
                       (lit "q", Text (lit "Oslo")) ] |} ]
  ∧ lastRequest (app (onSubmit demoEnv typed)) = Some (cityRequest "Oslo").
Proof.
  assert (Hne : trim (query (app typed)) ≠ []) by (by vm_compute).
  split; [exact Hne |]. split; [reflexivity |]. split; [reflexivity |].
  destruct (search_submit demoEnv typed) as (_ & _ & _ & H).
  destruct (H Hne (lit "demo-key") eq_refl eq_refl) as (Hn & Hl & _).
  split; [exact Hn | exact Hl].
Defined.

Lemma forecast_days_witness :
  reachable demoEnv forecasting
  ∧ pending forecasting 1
    = Some {| endpoint := OpenMeteo;
              params := forecastParams metric (5991 # 100) (1075 # 100) |}
  ∧ ∃ w' days,
      step demoEnv forecasting (ForecastSettled 1 week) = Some w'
      ∧ weekly (app w') = Some days
      ∧ length days = 2
      ∧ ∃ day, days !! 1 = Some day
          ∧ date day = lit "2024-01-02"
          ∧ code day = 0%Q
          ∧ tempMax day = 5%Q
          ∧ sunrise day = None.
Proof.
  split; [exact forecasting_reachable |]. split; [by vm_compute |].
  destruct (forecast_days demoEnv forecasting 1
              {| endpoint := OpenMeteo;
                 params := forecastParams metric (5991 # 100) (1075 # 100) |}
              {| ok := true; json := inr {| daily := Some twoDays |} |}
              {| daily := Some twoDays |} twoDays
              [lit "2024-01-01"; lit "2024-01-02"]
              forecasting_reachable ltac:(by vm_compute) eq_refl eq_refl eq_refl
              eq_refl eq_refl ltac:(discriminate))
    as (w' & days & Hs & Hw & Hlen & Hday).
  destruct (Hday 1 (lit "2024-01-02") eq_refl)
    as (day & Hd & Hdate & Hc0 & _ & _ & Hmax & _ & _ & _ & Hsun & _).
  exists w', days. split; [exact Hs |]. split; [exact Hw |]. split; [exact Hlen |].
  exists day. split; [exact Hd |]. split; [exact Hdate |].
  split; [exact (Hc0 eq_refl) |]. split; [exact (Hmax 5%Q eq_refl) | exact Hsun].
Defined.

Lemma toggle_twice_witness :
  reachable demoEnv searching
  ∧ lastRequest (app searching) = Some (cityRequest "Oslo")
  ∧ ∃ w1 w2,
      step demoEnv searching ToggleUnits = Some w1
      ∧ step demoEnv w1 ToggleUnits = Some w2
      ∧ units (app w2) = metric
      ∧ weatherCalls w2
        = weatherCalls w1
          ++ [ {| endpoint := OpenWeather;
                  params := weatherParams (lit "demo-key") (units (app w2))
                              (cityRequest "Oslo") |} ].
Proof.
  assert (Hl : lastRequest (app searching) = Some (cityRequest "Oslo"))
    by (by vm_compute).
  split; [exact searching_reachable |]. split; [exact Hl |].
  destruct (toggle_twice demoEnv) as (_ & H & _).
  destruct (H searching (cityRequest "Oslo") searching_reachable Hl)
    as (key & w1 & w2 & Hk & H1 & H2 & _ & Hu & _ & Hc & _).
  injection Hk as <-.
  exists w1, w2. split; [exact H1 |]. split; [exact H2 |].
  split; [exact Hu | exact Hc].
Defined.

Lemma last_request_memory_witness :
  reachable demoEnv (mount demoEnv)
  ∧ apiKey demoEnv = Some (lit "demo-key")
  ∧ nonEmpty (lit "demo-key") = true
  ∧ weatherTry rejected = inl (ErrorObj (lit "Failed to fetch"))
  ∧ ∃ w1 w2,
      step demoEnv (fetchWeather demoEnv metric (cityRequest "Oslo") (mount demoEnv))
        (WeatherSettled 0 rejected) = Some w1
      ∧ data (app w1) = None
      ∧ lastRequest (app w1) = Some (cityRequest "Oslo")
      ∧ step demoEnv w1 ToggleUnits = Some w2
      ∧ weatherCalls w2
        = weatherCalls w1
          ++ [ {| endpoint := OpenWeather;
                  params := weatherParams (lit "demo-key") (units (app w2))
                              (cityRequest "Oslo") |} ].
Proof.
  split; [constructor |]. split; [reflexivity |]. split; [reflexivity |].
  split; [reflexivity |].
  destruct (last_request_memory demoEnv) as (_ & _ & _ & H).
  destruct (H (mount demoEnv) (lit "demo-key") metric (cityRequest "Oslo") rejected
              (ErrorObj (lit "Failed to fetch")) (reachable_mount demoEnv)
              eq_refl eq_refl eq_refl)
    as (w1 & w2 & H1 & Hd & _ & Hl & H2 & Hc).
  exists w1, w2. repeat split; assumption.
Defined.

Lemma initial_units_witness :
  navigator usEnv = Some {| language := lit "en-US"; geolocation := true |}
  ∧ units (app (mount usEnv)) = imperial
  ∧ units (app (mount noKeyEnv)) = metric.
Proof.
  split; [reflexivity |].
  destruct (initial_units_by_locale usEnv) as ([_ H] & _).
  destruct (initial_units_by_locale noKeyEnv) as (_ & _ & H' & _).
  split; [| exact (H' eq_refl)].
  apply H. eexists. split; [reflexivity |]. by left.
Defined.

(** * Further properties *)

(** ** Query strings *)

Lemma params_get_nil key : params_get key [] = None.
Proof. done. Qed.

Lemma params_get_cons key k v ps :
  params_get key ((k, v) :: ps)
  = if decide (k = key) then Some v else params_get key ps.
Proof.
  unfold params_get. simpl. case_decide; [done |].
  by destruct (list_find (λ p, p.1 = key) ps) as [[i [k' v']]|].
Qed.

(** X1. The query string [fetchWeather] builds: the credential and the
    unit system are always there; [q] is there exactly when the request
    has a non-empty city, with that city; [lat] and [lon] are there
    together, exactly when the request has both, and with a latitude but
    no longitude (or the converse) neither is sent; no name occurs twice
    and no other name occurs. *)
Theorem weatherParams_contents (key : jsstring) (u : Units) (request : WeatherRequest) :
  params_get (lit "appid") (weatherParams key u request) = Some (Text key)
  ∧ params_get (lit "units") (weatherParams key u request)
    = Some (Text (match u with metric => lit "metric" | imperial => lit "imperial" end))
  ∧ params_get (lit "q") (weatherParams key u request)
    = match city request with
      | Some (c :: rest) => Some (Text (c :: rest))
      | _ => None
      end
  ∧ params_get (lit "lat") (weatherParams key u request)
    = match lat request, lon request with
      | Some la, Some _ => Some (NumberText la)
      | _, _ => None
      end
  ∧ params_get (lit "lon") (weatherParams key u request)
    = match lat request, lon request with
      | Some _, Some lo => Some (NumberText lo)
      | _, _ => None
      end
  ∧ NoDup (paramNames (weatherParams key u request))
  ∧ paramNames (weatherParams key u request)
      ⊆ [lit "appid"; lit "units"; lit "q"; lit "lat"; lit "lon"].
Proof.
  assert (Hd : ∀ l : list jsstring, bool_decide (NoDup l) = true → NoDup l)
    by (intros l; apply bool_decide_eq_true_1).
  assert (Hs : ∀ l k : list jsstring, bool_decide (l ⊆ k) = true → l ⊆ k)
    by (intros l k; apply bool_decide_eq_true_1).
  destruct request as [[[|c l]|] [la|] [lo|]], u;
    (split_and!; [reflexivity .. | apply Hd; by vm_compute | apply Hs; by vm_compute]).
Qed.

(** X15. The unit labels of the render agree with what the fetches of the
    same render ask the providers for: the temperature label is F, the
    wind label mph and the badge Fahrenheit exactly when Provider A is
    asked for imperial units and Provider B for fahrenheit; otherwise
    they are C, m/s and Celsius, with metric and celsius requested. *)
Theorem labels_agree_with_requests (key : jsstring) (u : Units)
    (request : WeatherRequest) (la lo : Q) :
  (u = imperial
   ∧ temperatureLabel u = lit "F" ∧ windLabel u = lit "mph"
   ∧ statusBadge u = lit "Fahrenheit"
   ∧ params_get (lit "units") (weatherParams key u request) = Some (Text (lit "imperial"))
   ∧ params_get (lit "temperature_unit") (forecastParams u la lo)
     = Some (Text (lit "fahrenheit")))
  ∨ (u = metric
     ∧ temperatureLabel u = lit "C" ∧ windLabel u = lit "m/s"
     ∧ statusBadge u = lit "Celsius"
     ∧ params_get (lit "units") (weatherParams key u request) = Some (Text (lit "metric"))
     ∧ params_get (lit "temperature_unit") (forecastParams u la lo)
       = Some (Text (lit "celsius"))).
Proof.
  destruct u; [right | left];
    (split_and!; try reflexivity; apply weatherParams_units).
Qed.

(** ** What is sent to whom *)

Lemma weatherParams_appid key u request :
  params_get (lit "appid") (weatherParams key u request) = Some (Text key).
Proof. destruct request as [[[|c l]|] [la|] [lo|]]; reflexivity. Qed.

Lemma fetchWeather_known env key u request w :
  apiKey env = Some key →
  Forall (knownCall key) (net w) →
  Forall (knownCall key) (net (fetchWeather env u request w)).
Proof.
  intros Hk H.
  destruct (fetchWeather_cases env u request w) as [(k & Hk' & _ & ->) | [_ ->]];
    [| done].
  rewrite Hk in Hk'. injection Hk' as <-. simpl.
  apply Forall_app. split; [done |]. apply Forall_singleton. left. eauto.
Qed.

Lemma weeklyEffect_known key s w :
  Forall (knownCall key) (net w) → Forall (knownCall key) (net (weeklyEffect s w)).
Proof.
  intros H. unfold weeklyEffect. case_match; [| done]. simpl.
  apply Forall_app. split; [done |]. apply Forall_singleton. right. eauto.
Qed.

Lemma render_known env key w :
  apiKey env = Some key →
  Forall (knownCall key) (net w) → Forall (knownCall key) (net (render env w)).
Proof.
  intros Hk H. unfold render. simpl. unfold replayEffect.
  repeat case_match;
    repeat first [ assumption | apply weeklyEffect_known | by apply fetchWeather_known ].
Qed.

Lemma step_known env key w e w' :
  apiKey env = Some key → step env w e = Some w' →
  Forall (knownCall key) (net w) → Forall (knownCall key) (net w').
Proof.
  intros Hk H Hf. step_cases H e; apply render_known; try done.
  - unfold onSubmit. case_match; [done | by apply fetchWeather_known].
  - unfold onUseLocation. by repeat case_match.
  - unfold onPosition. by apply fetchWeather_known.
  - by destruct (weatherResumes_frame r (markSettled id w))
      as (_ & _ & _ & _ & _ & -> & _).
  - by destruct (forecastResumes_currentSide r (markSettled id w))
      as (_ & _ & _ & _ & ->).
Qed.

Lemma reachable_known env key w :
  apiKey env = Some key → reachable env w → Forall (knownCall key) (net w).
Proof.
  intros Hk. induction 1 as [|w e w' _ IH Hstep].
  - unfold mount. apply render_known; [done | by apply Forall_nil].
  - by eapply step_known.
Qed.

(** X2. Every request the component ever issues needs the credential to
    be configured, and goes to one of the two providers in its fixed
    form: a request to Provider A carries the credential as [appid]; a
    request to Provider B never carries the credential, and always asks
    for seven days, the automatic time zone and the same six daily
    series. *)
Theorem credential_only_to_provider_a (env : Env) (w : World) (c : NetCall) :
  reachable env w → c ∈ net w →
  ∃ key, apiKey env = Some key ∧ nonEmpty key = true
    ∧ ((endpoint c = OpenWeather
        ∧ params_get (lit "appid") (params c) = Some (Text key))
       ∨ (endpoint c = OpenMeteo
          ∧ params_get (lit "appid") (params c) = None
          ∧ params_get (lit "forecast_days") (params c) = Some (Text (lit "7"))
          ∧ params_get (lit "timezone") (params c) = Some (Text (lit "auto"))
          ∧ params_get (lit "daily") (params c)
            = Some (Text (lit "weathercode,temperature_2m_max,temperature_2m_min,uv_index_max,sunrise,sunset")))).
Proof.
  intros Hr Hin. destruct (truthy (apiKey env)) eqn:Et.
  - apply truthy_Some in Et as (key & Hk & Hn). exists key.
    split; [done |]. split; [done |].
    pose proof (reachable_known env key w Hk Hr) as Hf.
    rewrite Forall_forall in Hf.
    destruct (Hf c Hin) as [(u & request & ->) | (u & la & lo & ->)].
    + left. split; [done | apply weatherParams_appid].
    + right. by split_and!.
  - destruct (reachable_dormant env w Et Hr) as (Hn & _).
    rewrite Hn in Hin. by apply elem_of_nil in Hin.
Qed.

(** ** Failures and successes of the two fetches *)

Lemma weather_failure_step env w id r call err :
  synced w → pending w id = Some call → endpoint call = OpenWeather →
  weatherTry r = inl err →
  weatherFailsWith env w id r (caughtMessage err).
Proof.
  intros [H1 H2] Hp He Ht. eexists. split; [by eapply step_weather_settles |].
  rewrite render_quiet
    by (by destruct (weatherResumes_frame r (markSettled id w))
             as (_ & -> & _ & -> & _)).
  unfold weeklyDepsChanged, weatherResumes. rewrite Ht. simpl. rewrite H2.
  unfold weeklyDepsOf, sameWeeklyDeps, weeklyEffect. simpl.
  by destruct (negb _).
Qed.

(** X3. How a current-conditions fetch fails. When [fetch] rejects, or
    the body of the response cannot be read (whatever its status), the
    error is the message of what was thrown, or "Unknown error" when that
    is not an [Error]. When the response is not a success, the error is
    the [message] of its body, or "Unable to fetch weather right now."
    when the body has none or an empty one. In each case the stored
    conditions are emptied, loading ends and no request is issued again. *)
Theorem weather_failure_reported (env : Env) (w : World) id call :
  reachable env w → pending w id = Some call → endpoint call = OpenWeather →
  (∀ t, weatherFailsWith env w id (inl t)
          match t with ErrorObj m => m | NonError => lit "Unknown error" end)
  ∧ (∀ status t,
       weatherFailsWith env w id (inr {| ok := status; json := inl t |})
         match t with ErrorObj m => m | NonError => lit "Unknown error" end)
  ∧ (∀ body,
       weatherFailsWith env w id (inr {| ok := false; json := inr body |})
         match message body with
         | Some (c :: m) => c :: m
         | _ => lit "Unable to fetch weather right now."
         end).
Proof.
  intros Hr Hp He. pose proof (reachable_synced env w Hr) as Hs. split_and!.
  - intros t.
    replace (match t with ErrorObj m => m | NonError => lit "Unknown error" end)
      with (caughtMessage t) by (by destruct t).
    by eapply weather_failure_step.
  - intros status t.
    replace (match t with ErrorObj m => m | NonError => lit "Unknown error" end)
      with (caughtMessage t) by (by destruct t).
    by eapply weather_failure_step.
  - intros body.
    replace (match message body with
             | Some (c :: m) => c :: m
             | _ => lit "Unable to fetch weather right now."
             end)
      with (caughtMessage
              (ErrorObj (orElse (message body) (lit "Unable to fetch weather right now."))))
      by (by destruct (message body) as [[|c m]|]).
    by eapply weather_failure_step.
Qed.

(** X4. How a forecast fetch fails in transport: when [fetch] rejects, or
    the body of a successful response cannot be read, the forecast error
    is the message of what was thrown, or "Unknown error" when that is
    not an [Error]; no forecast is stored, its loading ends, no request
    is issued again and the current-conditions cells are untouched. *)
Theorem forecast_transport_failure (env : Env) (w : World) id call :
  reachable env w → pending w id = Some call → endpoint call = OpenMeteo →
  (∀ t, forecastFailsWith env w id (inl t)
          match t with ErrorObj m => m | NonError => lit "Unknown error" end)
  ∧ (∀ t,
       forecastFailsWith env w id (inr {| ok := true; json := inl t |})
         match t with ErrorObj m => m | NonError => lit "Unknown error" end).
Proof.
  intros Hr Hp He. split; intros t;
    (eexists; split; [by eapply forecast_settles |]); by destruct t.
Qed.
Lemma sameWeeklyDeps_coords (a b : option Coord) u :
  sameWeeklyDeps (coord_lat <$> a, coord_lon <$> a, u)
                 (coord_lat <$> b, coord_lon <$> b, u)
  = sameCoords a b.
Proof.
  unfold sameWeeklyDeps. simpl. rewrite bool_decide_eq_true_2 by done.
  rewrite andb_true_r. by destruct a, b.
Qed.

(** X5. How a current-conditions fetch succeeds. The body is stored,
    loading ends and the error cell is left as it was. What happens to the
    forecast depends on the coordinates only: when they equal the stored
    ones (or both are absent) nothing is requested and the forecast cells
    are left as they were, so searching the same place again does not
    refresh the forecast; when they differ and the body has coordinates,
    exactly one request for them goes to Provider B with the current unit
    system, the forecast is marked loading and its error cleared; when
    they differ and the body has none, the stored forecast is emptied. *)
Theorem weather_success_cascade (env : Env) (w : World) id call r body :
  reachable env w → pending w id = Some call → endpoint call = OpenWeather →
  weatherTry r = inr body →
  ∃ w', step env w (WeatherSettled id r) = Some w'
    ∧ data (app w') = Some body
    ∧ loading (app w') = false
    ∧ error (app w') = error (app w)
    ∧ (sameCoords (data (app w) ≫= coord) (coord body) = true →
         net w' = net w ∧ forecastSide (app w') = forecastSide (app w))
    ∧ (sameCoords (data (app w) ≫= coord) (coord body) = false →
         ∀ c, coord body = Some c →
           net w'
           = net w ++ [ {| endpoint := OpenMeteo;
                           params := forecastParams (units (app w))
                                       (coord_lat c) (coord_lon c) |} ]
           ∧ weeklyLoading (app w') = true
           ∧ weeklyError (app w') = []
           ∧ weekly (app w') = weekly (app w))
    ∧ (sameCoords (data (app w) ≫= coord) (coord body) = false →
         coord body = None →
           net w' = net w
           ∧ weekly (app w') = None
           ∧ weeklyLoading (app w') = weeklyLoading (app w)
           ∧ weeklyError (app w') = weeklyError (app w)).
Proof.
  intros Hr Hp He Ht. destruct (reachable_synced env w Hr) as [H1 H2].
  eexists. split; [by eapply step_weather_settles |].
  rewrite render_quiet
    by (by destruct (weatherResumes_frame r (markSettled id w))
             as (_ & -> & _ & -> & _)).
  unfold weeklyDepsChanged, weatherResumes. rewrite Ht. simpl. rewrite H2.
  unfold weeklyDepsOf. simpl. rewrite sameWeeklyDeps_coords.
  unfold weeklyEffect. simpl.
  destruct (sameCoords (data (app w) ≫= coord) (coord body)) eqn:Es; simpl.
  - by split_and!.
  - destruct (coord body) as [c|]; simpl.
    + do 4 (split; [done |]). split; [by intros _ c' [= <-] | done].
    + do 4 (split; [done |]). by split.
Qed.


(** ** Loading flags *)

Lemma inFlight_grows w w' p : grows w w' → inFlight w p → inFlight w' p.
Proof.
  intros Hg (id & call & Hp & He). exists id, call.
  split; [by eapply grows_pending | done].
Qed.

Lemma inFlight_issue call w : inFlightBound w → inFlight (issue call w) (endpoint call).
Proof.
  intros Hb. exists (length (net w)), call.
  split; [exact (issue_pending call w Hb) | done].
Qed.

(** Requests were only added and the flags are as before. *)
Lemma loadingBacked_grows w w' :
  grows w w' →
  loading (app w') = loading (app w) →
  weeklyLoading (app w') = weeklyLoading (app w) →
  loadingBacked w → loadingBacked w'.
Proof.
  intros Hg E1 E2 [HA HB]. split; intros H.
  - rewrite E1 in H. eapply inFlight_grows; [exact Hg | by apply HA].
  - rewrite E2 in H. eapply inFlight_grows; [exact Hg | by apply HB].
Qed.

Lemma fetchWeather_backed env u request w :
  inFlightBound w → loadingBacked w → loadingBacked (fetchWeather env u request w).
Proof.
  intros Hb [HA HB].
  destruct (fetchWeather_cases env u request w) as [(k & _ & _ & E) | [_ E]].
  - split; intros H; rewrite E in *.
    + exact (inFlight_issue {| endpoint := OpenWeather; params := weatherParams k u request |}
               (upd (setLastRequest request) (upd (setError []) (upd (setLoading true) w)))
               Hb).
    + eapply inFlight_grows; [apply grows_issue |]. by apply HB.
  - rewrite E. by split.
Qed.

Lemma weeklyEffect_backed s w :
  inFlightBound w → loadingBacked w → loadingBacked (weeklyEffect s w).
Proof.
  intros Hb [HA HB]. unfold weeklyEffect. case_match; [| by split].
  unfold fetchWeeklyForecast. split; intros Hload.
  - eapply inFlight_grows; [apply grows_issue |]. by apply HA.
  - match goal with |- inFlight (issue ?c ?v) _ => exact (inFlight_issue c v Hb) end.
Qed.

Lemma replayEffect_backed env u w :
  inFlightBound w → loadingBacked w → loadingBacked (replayEffect env u w).
Proof.
  intros Hb H. unfold replayEffect. case_match; [by apply fetchWeather_backed | done].
Qed.

Lemma replayEffect_grows env u w : grows w (replayEffect env u w).
Proof.
  unfold replayEffect. case_match; [apply fetchWeather_grows | apply grows_refl].
Qed.

Lemma render_backed env w :
  inFlightBound w → loadingBacked w → loadingBacked (render env w).
Proof.
  intros Hb H. unfold render.
  assert (R : ∀ v u d, loadingBacked v → loadingBacked (remember u d v))
    by (intros v u d Hv; exact Hv).
  apply R.
  assert (Hb1 : inFlightBound (replayEffect env (units (app w)) w))
    by (eapply grows_bound; [apply replayEffect_grows | done]).
  repeat case_match;
    repeat first [ assumption
                 | apply weeklyEffect_backed
                 | by apply replayEffect_backed ].
Qed.

Lemma settled_backed (w : World) id call (v : World) p :
  pending w id = Some call → endpoint call ≠ p →
  net v = net w → settled v = id :: settled w →
  inFlight w p → inFlight v p.
Proof.
  intros Hp Hne En Es (id' & call' & Hp' & He'). exists id', call'.
  split; [| done]. unfold pending in *. rewrite En, Es.
  case_decide as Hin'; [done |]. rewrite decide_False; [done |].
  rewrite elem_of_cons. intros [-> | Hin]; [| done].
  case_decide; [done |]. congruence.
Qed.

Lemma weatherResumes_weeklyLoading r w :
  weeklyLoading (app (weatherResumes r w)) = weeklyLoading (app w).
Proof. unfold weatherResumes. by case_match. Qed.

Lemma forecastResumes_loading r w :
  loading (app (forecastResumes r w)) = loading (app w).
Proof. unfold forecastResumes. by case_match. Qed.

Lemma step_backed env w e w' :
  step env w e = Some w' → inFlightBound w → loadingBacked w → loadingBacked w'.
Proof.
  intros H Hb Hl. step_cases H e.
  - by apply render_backed.
  - apply render_backed.
    + unfold onSubmit. case_match; [done |].
      eapply grows_bound; [apply fetchWeather_grows | done].
    + unfold onSubmit. case_match; [done | by apply fetchWeather_backed].
  - apply render_backed; unfold onUseLocation; by repeat case_match.
  - apply render_backed.
    + unfold onPosition. eapply grows_bound; [apply fetchWeather_grows | done].
    + unfold onPosition. by apply fetchWeather_backed.
  - by apply render_backed.
  - by apply render_backed.
  - destruct (weatherResumes_frame r (markSettled id w))
      as (Ef & _ & _ & _ & _ & En & Es).
    destruct (weatherResumes_currentSide r (markSettled id w)) as (_ & El & _).
    apply render_backed.
    + unfold inFlightBound. rewrite En, Es. by eapply markSettled_bound.
    + destruct Hl as [_ HB]. split; intros Hload; [congruence |].
      rewrite weatherResumes_weeklyLoading in Hload.
      eapply (settled_backed w id x); [done | congruence | done | done | by apply HB].
  - destruct (forecastResumes_currentSide r (markSettled id w))
      as (Ec & _ & _ & _ & En).
    apply render_backed.
    + unfold inFlightBound, forecastResumes. case_match; by eapply markSettled_bound.
    + destruct Hl as [HA _]. split; intros Hload.
      * rewrite forecastResumes_loading in Hload.
        eapply (settled_backed w id x); [done | congruence | done | | by apply HA].
        unfold forecastResumes. by case_match.
      * unfold forecastResumes in Hload. by case_match.
Qed.

(** X6. A loading flag that is up always has a request in flight behind
    it: while [loading] is true some request to Provider A has not
    settled, and while [weeklyLoading] is true some request to Provider B
    has not settled. *)
Theorem loading_has_request (env : Env) (w : World) :
  reachable env w →
  (loading (app w) = true →
     ∃ id call, pending w id = Some call ∧ endpoint call = OpenWeather)
  ∧ (weeklyLoading (app w) = true →
     ∃ id call, pending w id = Some call ∧ endpoint call = OpenMeteo).
Proof.
  intros Hr. change (loadingBacked w).
  induction Hr as [|w e w' Hr IH Hstep].
  - unfold mount. apply render_backed; [by apply Forall_nil | by split].
  - eapply step_backed; [exact Hstep | by eapply reachable_bound | exact IH].
Qed.


(** ** Geolocation *)

Lemma weeklyEffect_geo s w :
  geo (weeklyEffect s w) = geo w ∧ geoDone (weeklyEffect s w) = geoDone w.
Proof. unfold weeklyEffect. by case_match. Qed.

Lemma replayEffect_geo env u w :
  geo (replayEffect env u w) = geo w ∧ geoDone (replayEffect env u w) = geoDone w.
Proof.
  unfold replayEffect. destruct (lastRequest (app w)) as [request|]; [| done].
  by destruct (fetchWeather_deps env u request w) as (_ & _ & _ & -> & ->).
Qed.

Lemma render_geo env w :
  geo (render env w) = geo w ∧ geoDone (render env w) = geoDone w.
Proof.
  unfold render. simpl.
  destruct (replayEffect_geo env (units (app w)) w) as [E1 E2].
  repeat case_match;
    repeat match goal with
      | |- context [geo (weeklyEffect ?s ?v)] =>
          destruct (weeklyEffect_geo s v) as [-> ->]
      end; by rewrite ?E1, ?E2.
Qed.

Lemma render_geoBound env w : geoBound w → geoBound (render env w).
Proof.
  unfold geoBound. by destruct (render_geo env w) as [-> ->].
Qed.

Lemma fetchWeather_geoBound env u request w :
  geoBound w → geoBound (fetchWeather env u request w).
Proof.
  unfold geoBound. by destruct (fetchWeather_deps env u request w) as (_ & _ & _ & -> & ->).
Qed.

Lemma waiting_bound w i u : waiting w i = Some u → i < length (geo w).
Proof. unfold waiting. case_decide; [done |]. apply lookup_lt_Some. Qed.

Lemma step_geoBound env w e w' :
  step env w e = Some w' → geoBound w → geoBound w'.
Proof.
  intros H Hb. step_cases H e; apply render_geoBound.
  - done.
  - unfold onSubmit. case_match; [done | by apply fetchWeather_geoBound].
  - unfold onUseLocation. repeat case_match; try done.
    unfold geoBound in *. simpl. rewrite length_app.
    eapply Forall_impl; [exact Hb |]. simpl. lia.
  - unfold onPosition. apply fetchWeather_geoBound.
    apply Forall_cons. split; [| done].
    match goal with Hw : waiting _ _ = Some _ |- _ => exact (waiting_bound _ _ _ Hw) end.
  - apply Forall_cons. split; [| done].
    match goal with Hw : waiting _ _ = Some _ |- _ => exact (waiting_bound _ _ _ Hw) end.
  - done.
  - unfold weatherResumes. by case_match.
  - unfold forecastResumes. by case_match.
Qed.

Lemma reachable_geoBound env w : reachable env w → geoBound w.
Proof.
  induction 1 as [|w e w' _ IH Hstep].
  - unfold mount. apply render_geoBound. by apply Forall_nil.
  - by eapply step_geoBound.
Qed.

Lemma askPosition_waiting u w :
  geoBound w → waiting (askPosition u w) (length (geo w)) = Some u.
Proof.
  intros Hb. unfold waiting. simpl. rewrite decide_False.
  - by rewrite lookup_app_r, Nat.sub_diag.
  - intros Hin. unfold geoBound in Hb. rewrite Forall_forall in Hb.
    apply Hb in Hin. lia.
Qed.

(** X7. The "use my location" button. When the runtime has no
    geolocation the click only reports that it is unsupported. When it
    has, the click asks for one position and changes nothing that is
    shown. A position error only reports the error. A position, with a
    credential, issues exactly one request to Provider A that carries the
    latitude and the longitude and no city, remembers it as the last
    request, raises loading and clears the error. *)
Theorem geolocation_flow (env : Env) (w : World) :
  reachable env w →
  (∀ nav, navigator env = Some nav → geolocation nav = false →
     ∃ w', step env w UseLocation = Some w'
       ∧ error (app w') = lit "Geolocation is not supported in this browser."
       ∧ geo w' = geo w ∧ net w' = net w
       ∧ data (app w') = data (app w) ∧ loading (app w') = loading (app w)
       ∧ lastRequest (app w') = lastRequest (app w))
  ∧ (∀ nav, navigator env = Some nav → geolocation nav = true →
       ∃ w', step env w UseLocation = Some w'
         ∧ app w' = app w ∧ net w' = net w
         ∧ geo w' = geo w ++ [units (app w)]
         ∧ waiting w' (length (geo w)) = Some (units (app w)))
  ∧ (∀ i u, waiting w i = Some u →
       ∃ w', step env w (PositionError i) = Some w'
         ∧ error (app w')
           = lit "Unable to access your location. Check browser permissions."
         ∧ net w' = net w
         ∧ data (app w') = data (app w) ∧ loading (app w') = loading (app w)
         ∧ lastRequest (app w') = lastRequest (app w))
  ∧ (∀ i u la lo key, waiting w i = Some u →
       apiKey env = Some key → nonEmpty key = true →
       ∃ w', step env w (Position i la lo) = Some w'
         ∧ net w'
           = net w ++ [ {| endpoint := OpenWeather;
                           params := [ (lit "appid", Text key);
                                       (lit "units", Text (unitsText u));
                                       (lit "lat", NumberText la);
                                       (lit "lon", NumberText lo) ] |} ]
         ∧ lastRequest (app w') = Some (coordsRequest la lo)
         ∧ loading (app w') = true
         ∧ error (app w') = []).
Proof.
  intros Hr. pose proof (reachable_synced env w Hr) as Hs.
  pose proof (reachable_geoBound env w Hr) as Hg. split_and!.
  - intros nav Hn Hu.
    exists (upd (setError (lit "Geolocation is not supported in this browser.")) w).
    split; [| by split_and!].
    unfold step, onUseLocation. rewrite Hn, Hu. simpl.
    f_equal. apply render_id. exact Hs.
  - intros nav Hn Hu. exists (askPosition (units (app w)) w).
    split; [| split_and!; try done; by apply askPosition_waiting].
    unfold step, onUseLocation. rewrite Hn, Hu. simpl.
    f_equal. apply render_id. exact Hs.
  - intros i u Hw.
    exists (onPositionError (markCalledBack i w)).
    split; [| by split_and!].
    unfold step. rewrite Hw. simpl. f_equal. apply render_id. exact Hs.
  - intros i u la lo key Hw Hk Hn.
    exists (onPosition env u la lo (markCalledBack i w)).
    split.
    + unfold step. rewrite Hw. simpl. f_equal. apply render_id.
      unfold onPosition. apply fetchWeather_synced. exact Hs.
    + unfold onPosition. rewrite (fetchWeather_configured env key) by done.
      by split_and!.
Qed.

(** X8. The position callback keeps the unit system of the click. When
    the units are toggled between the click on "use my location" and the
    arrival of the position, the request the callback issues to Provider A
    still asks for the unit system that was current at the click, while
    the component now shows (and labels values with) the other one; the
    request becomes the remembered one. *)
Theorem position_keeps_click_units (env : Env) (w : World) nav key la lo :
  reachable env w → navigator env = Some nav → geolocation nav = true →
  apiKey env = Some key → nonEmpty key = true →
  ∃ w1 w2 w3,
    step env w UseLocation = Some w1
    ∧ step env w1 ToggleUnits = Some w2
    ∧ step env w2 (Position (length (geo w)) la lo) = Some w3
    ∧ net w3
      = net w2 ++ [ {| endpoint := OpenWeather;
                       params := weatherParams key (units (app w))
                                   (coordsRequest la lo) |} ]
    ∧ units (app w3) ≠ units (app w)
    ∧ lastRequest (app w3) = Some (coordsRequest la lo).
Proof.
  intros Hr Hnav Hgeo Hk Hn.
  set (w1 := askPosition (units (app w)) w).
  assert (Hs1 : step env w UseLocation = Some w1).
  { unfold step, onUseLocation. rewrite Hnav, Hgeo. simpl.
    f_equal. apply render_id. exact (reachable_synced env w Hr). }
  assert (Hw1 : waiting w1 (length (geo w)) = Some (units (app w)))
    by (apply askPosition_waiting; by eapply reachable_geoBound).
  assert (Ea : app w1 = app w) by done.
  exists w1, (render env (toggleUnits w1)),
    (onPosition env (units (app w)) la lo
       (markCalledBack (length (geo w)) (render env (toggleUnits w1)))).
  assert (Hw2 : waiting (render env (toggleUnits w1)) (length (geo w))
                = Some (units (app w))).
  { unfold waiting in *. by destruct (render_geo env (toggleUnits w1)) as [-> ->]. }
  split_and!.
  - done.
  - done.
  - unfold step. rewrite Hw2. simpl. f_equal. apply render_id.
    unfold onPosition. apply fetchWeather_synced.
    exact (render_synced env (toggleUnits w1)).
  - unfold onPosition. by rewrite (fetchWeather_configured env key).
  - unfold onPosition. rewrite fetchWeather_units.
    change (units (app (markCalledBack ?i ?v))) with (units (app v)).
    rewrite render_units, toggleUnits_units, Ea.
    intros E. by apply (flipped_ne (units (app w))).
  - unfold onPosition. by rewrite (fetchWeather_configured env key).
Qed.


(** ** The memory and the first request *)

Lemma fetchWeather_lastRequest env u request w :
  lastRequest (app (fetchWeather env u request w))
  = if truthy (apiKey env) then Some request else lastRequest (app w).
Proof.
  destruct (fetchWeather_cases env u request w) as [(k & Hk & Hn & ->) | [Hk ->]].
  - by rewrite Hk; simpl; rewrite Hn.
  - by rewrite Hk.
Qed.

(** X9. The last-request memory changes only when a location is
    requested with a credential: a submitted search of non-blank text
    sets it to the city request of the trimmed text, and a position
    sets it to the request of its coordinates. Every other event (typing,
    a blank search, the location button, a position error, a unit toggle,
    any response) leaves it as it was, and once set it is never emptied. *)
Theorem memory_changes_on_location_only (env : Env) (w : World) e w' :
  step env w e = Some w' →
  (lastRequest (app w') = lastRequest (app w)
   ∨ (e = Submit ∧ trim (query (app w)) ≠ [] ∧ truthy (apiKey env) = true
      ∧ lastRequest (app w')
        = Some {| city := Some (trim (query (app w))); lat := None; lon := None |})
   ∨ (∃ i la lo, e = Position i la lo ∧ truthy (apiKey env) = true
        ∧ lastRequest (app w') = Some (coordsRequest la lo)))
  ∧ (lastRequest (app w) ≠ None → lastRequest (app w') ≠ None).
Proof.
  intros H. step_cases H e; rewrite render_lastRequest.
  - by split; [left |].
  - unfold onSubmit. destruct (nonEmpty (trim (query (app w)))) eqn:Et; simpl.
    + rewrite fetchWeather_lastRequest. destruct (truthy (apiKey env)) eqn:Ek.
      * split; [| done]. right. left. split_and!; try done.
        intros E. by rewrite E in Et.
      * by split; [left |].
    + by split; [left |].
  - unfold onUseLocation. repeat case_match; by split; [left |].
  - unfold onPosition. rewrite fetchWeather_lastRequest.
    destruct (truthy (apiKey env)) eqn:Ek.
    + split; [| done]. right. right. by exists i, la, lo.
    + by split; [left |].
  - by split; [left |].
  - by split; [left |].
  - destruct (weatherResumes_frame r (markSettled id w)) as (_ & _ & El & _).
    rewrite El. by split; [left |].
  - assert (lastRequest (app (forecastResumes r (markSettled id w)))
            = lastRequest (app w)) as ->
      by (unfold forecastResumes; by case_match).
    by split; [left |].
Qed.

Lemma step_lastRequest_None env w e w' :
  step env w e = Some w' → lastRequest (app w') = None → lastRequest (app w) = None.
Proof.
  intros H Hn. step_cases H e; rewrite render_lastRequest in Hn.
  - done.
  - unfold onSubmit in Hn. destruct (nonEmpty (trim (query (app w)))); simpl in Hn;
      [| done].
    rewrite fetchWeather_lastRequest in Hn. by destruct (truthy (apiKey env)).
  - unfold onUseLocation in Hn. by repeat case_match.
  - unfold onPosition in Hn. rewrite fetchWeather_lastRequest in Hn.
    by destruct (truthy (apiKey env)).
  - done.
  - done.
  - destruct (weatherResumes_frame r (markSettled id w)) as (_ & _ & El & _).
    by rewrite El in Hn.
  - unfold forecastResumes in Hn. by case_match.
Qed.

Lemma render_pristine env w : pristine w → pristine (render env w).
Proof.
  intros (Hn & Hd & Hw & Hl). unfold render, replayEffect, weeklyEffect.
  rewrite Hl, Hd. simpl. unfold pristine. by repeat case_match.
Qed.

Lemma step_pristine env w e w' :
  step env w e = Some w' → pristine w → lastRequest (app w') = None → pristine w'.
Proof.
  intros H Hp Hnone.
  assert (Hpend : ∀ id, pending w id = None).
  { intros id. unfold pending. destruct Hp as (-> & _). by case_decide. }
  step_cases H e; try (rewrite Hpend in *; discriminate);
    rewrite render_lastRequest in Hnone; apply render_pristine.
  - done.
  - unfold onSubmit in *. destruct (nonEmpty (trim (query (app w)))); simpl in *;
      [| done].
    rewrite fetchWeather_lastRequest in Hnone.
    destruct (truthy (apiKey env)) eqn:Ek; [done |].
    by rewrite fetchWeather_unconfigured.
  - unfold onUseLocation. by repeat case_match.
  - unfold onPosition in *. rewrite fetchWeather_lastRequest in Hnone.
    destruct (truthy (apiKey env)) eqn:Ek; [done |].
    by rewrite fetchWeather_unconfigured.
  - done.
  - done.
Qed.

Lemma reachable_pristine env w :
  reachable env w → lastRequest (app w) = None → pristine w.
Proof.
  induction 1 as [|w e w' Hr IH Hstep]; intros Hn.
  - by apply render_pristine.
  - eapply step_pristine; [exact Hstep | | exact Hn].
    apply IH. by eapply step_lastRequest_None.
Qed.

(** X10. Before the first location request nothing has happened: as long
    as the last-request memory is empty, no request was ever issued and
    neither conditions nor a forecast are stored; a unit toggle then
    flips the unit system and does nothing else, in particular it issues
    no request. *)
Theorem toggle_before_first_request (env : Env) (w : World) :
  reachable env w → lastRequest (app w) = None →
  net w = [] ∧ data (app w) = None ∧ weekly (app w) = None
  ∧ ∃ w', step env w ToggleUnits = Some w'
      ∧ units (app w') ≠ units (app w)
      ∧ net w' = []
      ∧ currentSide (app w') = currentSide (app w)
      ∧ forecastSide (app w') = forecastSide (app w).
Proof.
  intros Hr Hn. destruct (reachable_pristine env w Hr Hn) as (En & Ed & Ew & _).
  split_and!; try done.
  eexists. split; [reflexivity |].
  rewrite toggle_render by (by eapply reachable_synced).
  unfold replayEffect, weeklyEffect.
  change (lastRequest (app (toggleUnits w))) with (lastRequest (app w)).
  change (data (app (toggleUnits w))) with (data (app w)).
  rewrite Hn, Ed. simpl. split_and!; try done.
  - destruct (units (app w)); by simpl.
  - unfold forecastSide. simpl. by rewrite Ew.
Qed.

(** ** Searching *)

Lemma trimStart_app_blank (pre s : jsstring) :
  Forall (λ c, isWhiteSpace c = true) pre → trimStart (pre ++ s) = trimStart s.
Proof. induction 1 as [|c pre Hc _ IH]; simpl; [done | by rewrite Hc]. Qed.

Lemma trimStart_keep (c : N) (rest : jsstring) :
  isWhiteSpace c = false → trimStart (c :: rest) = c :: rest.
Proof. intros H. simpl. by rewrite H. Qed.

(** A text that neither starts nor ends with white space is what [trim]
    returns for it with white space around. *)
Lemma trim_core (pre core post : jsstring) :
  Forall (λ c, isWhiteSpace c = true) pre →
  Forall (λ c, isWhiteSpace c = true) post →
  (∀ c rest, core = c :: rest → isWhiteSpace c = false) →
  (∀ c rest, core = rest ++ [c] → isWhiteSpace c = false) →
  trim (pre ++ core ++ post) = core.
Proof.
  intros Hpre Hpost Hhd Htl. unfold trim, trimEnd.
  rewrite trimStart_app_blank by done.
  destruct core as [|c rest]; simpl.
  - by rewrite (trimStart_blank post).
  - rewrite (Hhd c rest eq_refl).
    change (c :: rest ++ post) with ((c :: rest) ++ post).
    rewrite reverse_app, trimStart_app_blank by (by apply Forall_reverse).
    destruct (c :: rest) as [|l front] using rev_ind; [done |].
    rewrite reverse_snoc, trimStart_keep by (by eapply Htl).
    by rewrite <- reverse_snoc, reverse_involutive.
Qed.

Lemma trim_padded (pre q post : jsstring) :
  Forall (λ c, isWhiteSpace c = true) pre →
  Forall (λ c, isWhiteSpace c = true) post →
  trim (pre ++ q ++ post) = trim q.
Proof.
  intros Hpre Hpost.
  destruct (trim_spec q) as (a & b & E & Ha & Hb & Hhd & Htl).
  rewrite E at 1.
  replace (pre ++ (a ++ trim q ++ b) ++ post)
    with ((pre ++ a) ++ trim q ++ (b ++ post))
    by (by rewrite <- !app_assoc).
  apply trim_core; try done; by apply Forall_app.
Qed.

(** X11. A search does not depend on the white space around the text:
    submitting a text with any white space before and after it issues the
    same request, remembers the same request and reports the same error
    as submitting the text itself; and trimming twice is trimming once. *)
Theorem search_ignores_padding (env : Env) (w : World) (pre q post : jsstring) :
  Forall (λ c, isWhiteSpace c = true) pre →
  Forall (λ c, isWhiteSpace c = true) post →
  net (onSubmit env (upd (setQuery (pre ++ q ++ post)) w))
  = net (onSubmit env (upd (setQuery q) w))
  ∧ currentSide (app (onSubmit env (upd (setQuery (pre ++ q ++ post)) w)))
    = currentSide (app (onSubmit env (upd (setQuery q) w)))
  ∧ trim (trim q) = trim q.
Proof.
  intros Hpre Hpost. unfold onSubmit. simpl.
  rewrite trim_padded by done. split_and!.
  - destruct (nonEmpty (trim q)); simpl; [| done].
    destruct (fetchWeather_cases env (units (app w))
                {| city := Some (trim q); lat := None; lon := None |}
                (upd (setQuery (pre ++ q ++ post)) w)) as [(k & Hk & Hn & ->) | [Hk ->]].
    + by rewrite (fetchWeather_configured env k).
    + by rewrite fetchWeather_unconfigured.
  - destruct (nonEmpty (trim q)); simpl; [| done].
    destruct (fetchWeather_cases env (units (app w))
                {| city := Some (trim q); lat := None; lon := None |}
                (upd (setQuery (pre ++ q ++ post)) w)) as [(k & Hk & Hn & ->) | [Hk ->]].
    + by rewrite (fetchWeather_configured env k).
    + by rewrite fetchWeather_unconfigured.
  - destruct (trim_spec q) as (_ & _ & _ & _ & _ & Hhd & Htl).
    rewrite <- (app_nil_r (trim q)) at 1.
    by apply (trim_core [] (trim q) []).
Qed.


(** ** Responses in any order *)

Lemma forecastResumes_pending r w id :
  pending (forecastResumes r w) id = pending w id.
Proof. unfold forecastResumes. by case_match. Qed.

Lemma forecastResumes_weekly r w :
  weekly (app (forecastResumes r w)) = storedForecast r
  ∧ weeklyLoading (app (forecastResumes r w)) = false
  ∧ weeklyError (app (forecastResumes r w))
    = match forecastTry r with
      | inl err => caughtMessage err
      | inr _ => weeklyError (app w)
      end
  ∧ data (app (forecastResumes r w)) = data (app w).
Proof. unfold forecastResumes, storedForecast. by case_match. Qed.

(** X12. Forecast responses are applied in the order they arrive,
    whatever conditions are stored. With two forecast requests in flight,
    once both have settled the stored forecast is the outcome of the one
    that settled last and the stored conditions are untouched. A success
    does not clear the forecast error: when the first to settle failed
    and the last succeeded, the forecast is stored but the error of the
    first remains and is what the panel shows. *)
Theorem forecast_last_settled_wins (env : Env) (w : World) i j ci cj ri rj :
  reachable env w →
  pending w i = Some ci → endpoint ci = OpenMeteo →
  pending w j = Some cj → endpoint cj = OpenMeteo → i ≠ j →
  ∃ w1 w2,
    step env w (ForecastSettled i ri) = Some w1
    ∧ step env w1 (ForecastSettled j rj) = Some w2
    ∧ weekly (app w2) = storedForecast rj
    ∧ weeklyLoading (app w2) = false
    ∧ weeklyError (app w2)
      = match forecastTry rj, forecastTry ri with
        | inl err, _ => caughtMessage err
        | inr _, inl err => caughtMessage err
        | inr _, inr _ => weeklyError (app w)
        end
    ∧ data (app w2) = data (app w)
    ∧ (∀ err days, forecastTry ri = inl err → forecastTry rj = inr days →
         caughtMessage err ≠ [] →
         weekly (app w2) = Some days
         ∧ forecastState (app w2) = Failed (caughtMessage err)).
Proof.
  intros Hr Hpi Hei Hpj Hej Hne.
  pose proof (forecast_settles env w i ri ci Hr Hpi Hei) as Hs1.
  assert (Hr1 : reachable env (forecastResumes ri (markSettled i w)))
    by (by eapply reachable_step).
  assert (Hpj1 : pending (forecastResumes ri (markSettled i w)) j = Some cj).
  { rewrite forecastResumes_pending. by apply pending_markSettled. }
  pose proof (forecast_settles env _ j rj cj Hr1 Hpj1 Hej) as Hs2.
  eexists _, _. split; [exact Hs1 |]. split; [exact Hs2 |].
  destruct (forecastResumes_weekly rj
              (markSettled j (forecastResumes ri (markSettled i w))))
    as (Ew & El & Ee & Ed).
  destruct (forecastResumes_weekly ri (markSettled i w)) as (_ & _ & Ee1 & Ed1).
  assert (Eerr : weeklyError
                   (app (forecastResumes rj
                           (markSettled j (forecastResumes ri (markSettled i w)))))
                 = match forecastTry rj, forecastTry ri with
                   | inl err, _ => caughtMessage err
                   | inr _, inl err => caughtMessage err
                   | inr _, inr _ => weeklyError (app w)
                   end).
  { rewrite Ee. destruct (forecastTry rj); [done |].
    change (weeklyError (app (markSettled j ?v))) with (weeklyError (app v)).
    rewrite Ee1. by destruct (forecastTry ri). }
  split_and!; try done.
  - rewrite Ed. change (data (app (markSettled j ?v))) with (data (app v)).
    by rewrite Ed1.
  - intros err days Hi Hj Hmsg. unfold forecastState. rewrite El, Eerr, Ew.
    unfold storedForecast. rewrite Hi, Hj. split; [done |].
    by destruct (caughtMessage err).
Qed.


(** ** Which event calls which provider *)

Lemma fetchWeather_calls env u request w :
  atMostOneMore (weatherCalls w) (weatherCalls (fetchWeather env u request w))
  ∧ forecastCalls (fetchWeather env u request w) = forecastCalls w.
Proof.
  destruct (fetchWeather_cases env u request w) as [(k & _ & _ & ->) | [_ ->]].
  - unfold weatherCalls, forecastCalls. simpl. rewrite !filter_app. simpl.
    split; [right; eauto | by rewrite app_nil_r].
  - by split; [left |].
Qed.

Lemma weeklyEffect_calls s w :
  weatherCalls (weeklyEffect s w) = weatherCalls w
  ∧ atMostOneMore (forecastCalls w) (forecastCalls (weeklyEffect s w)).
Proof.
  split; [apply weeklyEffect_weatherCalls |].
  unfold weeklyEffect, forecastCalls. case_match; [| by left]. simpl.
  rewrite filter_app. simpl. right. eauto.
Qed.

Lemma forecastResumes_net r w : net (forecastResumes r w) = net w.
Proof. unfold forecastResumes. by case_match. Qed.

(** X13. Which event calls which provider. One event issues at most one
    request to each provider. A request to Provider A is issued only by a
    submitted search, a position or a unit toggle, never by a response,
    so nothing is retried by itself. A request to Provider B is issued
    only by a unit toggle or by the arrival of a current-conditions
    response. *)
Theorem events_and_requests (env : Env) (w : World) e w' :
  reachable env w → step env w e = Some w' →
  (weatherCalls w' = weatherCalls w
   ∨ (∃ c, weatherCalls w' = weatherCalls w ++ [c])
     ∧ (e = Submit ∨ e = ToggleUnits ∨ ∃ i la lo, e = Position i la lo))
  ∧ (forecastCalls w' = forecastCalls w
     ∨ (∃ c, forecastCalls w' = forecastCalls w ++ [c])
       ∧ (e = ToggleUnits ∨ ∃ id r, e = WeatherSettled id r)).
Proof.
  intros Hr H. pose proof (reachable_synced env w Hr) as Hs.
  step_cases H e.
  - rewrite (render_id env (upd (setQuery text) w)) by exact Hs. by split; left.
  - assert (Hsy : synced (onSubmit env w)).
    { unfold onSubmit. case_match; [exact Hs | by apply fetchWeather_synced]. }
    rewrite render_id by done. unfold onSubmit. case_match; [by split; left |].
    destruct (fetchWeather_calls env (units (app w))
                {| city := Some (trim (query (app w))); lat := None; lon := None |} w)
      as [Ha Eb].
    rewrite Eb. split; [| by left].
    destruct Ha as [-> | Hc]; [by left | right; split; [exact Hc | by left]].
  - assert (Hsy : synced (onUseLocation env w))
      by (unfold onUseLocation; repeat case_match; exact Hs).
    rewrite render_id by done. unfold onUseLocation.
    repeat case_match; by split; left.
  - rewrite render_id by (unfold onPosition; apply fetchWeather_synced; exact Hs).
    unfold onPosition.
    match goal with |- context [fetchWeather env ?u ?rq ?v] =>
      destruct (fetchWeather_calls env u rq v) as [Ha Eb] end.
    rewrite Eb.
    change (forecastCalls (markCalledBack ?k ?v)) with (forecastCalls v).
    change (weatherCalls (markCalledBack ?k ?v)) with (weatherCalls v) in Ha.
    split; [| by left].
    destruct Ha as [-> | Hc]; [by left |].
    right; split; [exact Hc | right; right; eauto].
  - rewrite (render_id env (onPositionError (markCalledBack i w))) by exact Hs.
    by split; left.
  - rewrite toggle_render by done.
    destruct (weeklyEffect_calls (app (toggleUnits w))
                (replayEffect env (flipped (units (app w))) (toggleUnits w)))
      as [Ew Ef].
    change (weatherCalls (remember ?u ?d ?v)) with (weatherCalls v).
    change (forecastCalls (remember ?u ?d ?v)) with (forecastCalls v).
    rewrite Ew. unfold replayEffect in *.
    destruct (lastRequest (app (toggleUnits w))) as [request|].
    + destruct (fetchWeather_calls env (flipped (units (app w))) request (toggleUnits w))
        as [Ha Eb].
      rewrite Eb in Ef.
      change (forecastCalls (toggleUnits w)) with (forecastCalls w) in Ef.
      change (weatherCalls (toggleUnits w)) with (weatherCalls w) in Ha.
      split.
      * destruct Ha as [-> | Hc]; [by left | right; split; [exact Hc | by right; left]].
      * destruct Ef as [-> | Hc]; [by left | right; split; [exact Hc | by left]].
    + change (forecastCalls (toggleUnits w)) with (forecastCalls w) in Ef.
      split; [by left |].
      destruct Ef as [-> | Hc]; [by left | right; split; [exact Hc | by left]].
  - destruct (weatherResumes_frame r (markSettled id w))
      as (_ & Eu & _ & Er & _ & En & _).
    rewrite render_quiet by (rewrite Er, Eu; exact (proj1 Hs)).
    change (weatherCalls (remember ?u ?d ?v)) with (weatherCalls v).
    change (forecastCalls (remember ?u ?d ?v)) with (forecastCalls v).
    assert (Ea : weatherCalls (weatherResumes r (markSettled id w)) = weatherCalls w)
      by (unfold weatherCalls; by rewrite En).
    assert (Eb : forecastCalls (weatherResumes r (markSettled id w)) = forecastCalls w)
      by (unfold forecastCalls; by rewrite En).
    destruct (weeklyDepsChanged (weatherResumes r (markSettled id w))).
    + destruct (weeklyEffect_calls (app (weatherResumes r (markSettled id w)))
                  (weatherResumes r (markSettled id w))) as [Ew Ef].
      rewrite Ew, Ea. rewrite Eb in Ef. split; [by left |].
      destruct Ef as [-> | Hc]; [by left | right; split; [exact Hc | right; eauto]].
    + rewrite Ea, Eb. by split; left.
  - rewrite render_id
      by (apply forecastResumes_synced; exact Hs).
    unfold weatherCalls, forecastCalls. rewrite forecastResumes_net. by split; left.
Qed.

(** ** The life of a loading flag *)

Lemma fetchWeather_loading_kept env u request w :
  loading (app w) = true → loading (app (fetchWeather env u request w)) = true.
Proof.
  intros H.
  by destruct (fetchWeather_cases env u request w) as [(k & _ & _ & ->) | [_ ->]].
Qed.

Lemma fetchWeather_weeklyLoading env u request w :
  weeklyLoading (app (fetchWeather env u request w)) = weeklyLoading (app w).
Proof.
  by destruct (fetchWeather_cases env u request w) as [(k & _ & _ & ->) | [_ ->]].
Qed.

Lemma weeklyEffect_loading s w : loading (app (weeklyEffect s w)) = loading (app w).
Proof. unfold weeklyEffect. by case_match. Qed.

Lemma weeklyEffect_weeklyLoading_kept s w :
  weeklyLoading (app w) = true → weeklyLoading (app (weeklyEffect s w)) = true.
Proof. unfold weeklyEffect. by case_match. Qed.

Lemma render_loading_kept env w :
  loading (app w) = true → loading (app (render env w)) = true.
Proof.
  intros H. unfold render, replayEffect. simpl.
  repeat case_match; rewrite ?weeklyEffect_loading;
    try done; by apply fetchWeather_loading_kept.
Qed.

Lemma render_weeklyLoading_kept env w :
  weeklyLoading (app w) = true → weeklyLoading (app (render env w)) = true.
Proof.
  intros H. unfold render, replayEffect. simpl.
  repeat case_match;
    repeat first [ assumption
                 | apply weeklyEffect_weeklyLoading_kept
                 | rewrite fetchWeather_weeklyLoading ].
Qed.

(** X14. The life of a loading flag. Once up, [loading] stays up until a
    current-conditions response settles, and [weeklyLoading] until a
    forecast response settles: no other event lowers them, so a request
    that never settles leaves its flag up. A settling response lowers its
    flag at once, even when other requests to the same provider are still
    in flight; those stay in flight and will be applied when they
    settle. *)
Theorem loading_until_response (env : Env) (w : World) e w' :
  reachable env w → step env w e = Some w' →
  (loading (app w) = true →
     loading (app w') = true ∨ ∃ id r, e = WeatherSettled id r)
  ∧ (weeklyLoading (app w) = true →
     weeklyLoading (app w') = true ∨ ∃ id r, e = ForecastSettled id r)
  ∧ (∀ id r, e = WeatherSettled id r →
       loading (app w') = false
       ∧ ∀ id' c, id' ≠ id → pending w id' = Some c → pending w' id' = Some c)
  ∧ (∀ id r, e = ForecastSettled id r →
       weeklyLoading (app w') = false
       ∧ ∀ id' c, id' ≠ id → pending w id' = Some c → pending w' id' = Some c).
Proof.
  intros Hr H. pose proof (reachable_synced env w Hr) as Hs.
  pose proof H as Hstep. step_cases H e.
  - split_and!; try done; intros Hl; left.
    + by apply render_loading_kept.
    + by apply render_weeklyLoading_kept.
  - split_and!; try done; intros Hl; left.
    + apply render_loading_kept. unfold onSubmit.
      case_match; [done | by apply fetchWeather_loading_kept].
    + apply render_weeklyLoading_kept. unfold onSubmit.
      case_match; [done | by rewrite fetchWeather_weeklyLoading].
  - split_and!; try done; intros Hl; left.
    + apply render_loading_kept. unfold onUseLocation. by repeat case_match.
    + apply render_weeklyLoading_kept. unfold onUseLocation. by repeat case_match.
  - split_and!; try done; intros Hl; left.
    + apply render_loading_kept. unfold onPosition.
      by apply fetchWeather_loading_kept.
    + apply render_weeklyLoading_kept. unfold onPosition.
      by rewrite fetchWeather_weeklyLoading.
  - split_and!; try done; intros Hl; left.
    + by apply render_loading_kept.
    + by apply render_weeklyLoading_kept.
  - split_and!; try done; intros Hl; left.
    + by apply render_loading_kept.
    + by apply render_weeklyLoading_kept.
  - split_and!; try done.
    + intros _. right. eauto.
    + intros Hl. left. apply render_weeklyLoading_kept.
      by rewrite weatherResumes_weeklyLoading.
    + intros id0 r0 [= <- <-].
      destruct (weather_settles env w id r x Hs) as (v & Hv & _ & _ & Hlo & _);
        [done | done |].
      rewrite Hstep in Hv. injection Hv as <-. split; [done |].
      intros id' c Hne Hp. by eapply step_weather_other.
  - split_and!; try done.
    + intros Hl. left. apply render_loading_kept.
      by rewrite forecastResumes_loading.
    + intros _. right. eauto.
    + intros id0 r0 [= <- <-].
      rewrite render_id by (apply forecastResumes_synced; exact Hs).
      destruct (forecastResumes_weekly r (markSettled id w)) as (_ & El & _).
      split; [done |].
      intros id' c Hne Hp. rewrite forecastResumes_pending.
      by apply pending_markSettled.
Qed.


(** ** Instances of the further properties *)

Lemma typed_reachable : reachable demoEnv typed.
Proof.
  apply (run_reachable demoEnv (mount demoEnv) [Change (lit " Oslo ")]);
    [constructor | by vm_compute].
Qed.

Lemma racing_reachable : reachable demoEnv racing.
Proof.
  apply (run_reachable demoEnv (mount demoEnv) raceTrace);
    [constructor | by vm_compute].
Qed.

Lemma credential_only_to_provider_a_witness :
  reachable demoEnv searching
  ∧ {| endpoint := OpenWeather;
       params := weatherParams (lit "demo-key") metric (cityRequest "Oslo") |}
    ∈ net searching
  ∧ ∃ key, apiKey demoEnv = Some key
      ∧ params_get (lit "appid")
          (weatherParams (lit "demo-key") metric (cityRequest "Oslo"))
        = Some (Text key).
Proof.
  assert (Hin : {| endpoint := OpenWeather;
                   params := weatherParams (lit "demo-key") metric (cityRequest "Oslo") |}
                ∈ net searching).
  { apply list_elem_of_lookup. exists 0. by vm_compute. }
  split; [exact searching_reachable |]. split; [exact Hin |].
  destruct (credential_only_to_provider_a demoEnv searching _ searching_reachable Hin)
    as (key & Hk & _ & [[_ Ha] | [Hb _]]).
  - exists key. split; [exact Hk | exact Ha].
  - discriminate Hb.
Defined.

Lemma weather_failure_reported_witness :
  reachable demoEnv refreshing
  ∧ pending refreshing 2
    = Some {| endpoint := OpenWeather;
              params := weatherParams (lit "demo-key") metric (cityRequest "Oslo") |}
  ∧ weatherFailsWith demoEnv refreshing 2
      (inr {| ok := false; json := inr {| message := None; asWeatherData := oslo |} |})
      (lit "Unable to fetch weather right now.").
Proof.
  assert (Hp : pending refreshing 2
               = Some {| endpoint := OpenWeather;
                         params := weatherParams (lit "demo-key") metric
                                     (cityRequest "Oslo") |})
    by (by vm_compute).
  split; [exact refreshing_reachable |]. split; [exact Hp |].
  destruct (weather_failure_reported demoEnv refreshing 2 _ refreshing_reachable Hp eq_refl)
    as (_ & _ & H).
  exact (H {| message := None; asWeatherData := oslo |}).
Defined.

Lemma forecast_transport_failure_witness :
  reachable demoEnv forecasting
  ∧ pending forecasting 1
    = Some {| endpoint := OpenMeteo;
              params := forecastParams metric (5991 # 100) (1075 # 100) |}
  ∧ forecastFailsWith demoEnv forecasting 1 (inl NonError) (lit "Unknown error").
Proof.
  assert (Hp : pending forecasting 1
               = Some {| endpoint := OpenMeteo;
                         params := forecastParams metric (5991 # 100) (1075 # 100) |})
    by (by vm_compute).
  split; [exact forecasting_reachable |]. split; [exact Hp |].
  destruct (forecast_transport_failure demoEnv forecasting 1 _
              forecasting_reachable Hp eq_refl) as (H & _).
  exact (H NonError).
Defined.

Lemma weather_success_cascade_witness :
  reachable demoEnv refreshing
  ∧ pending refreshing 2
    = Some {| endpoint := OpenWeather;
              params := weatherParams (lit "demo-key") metric (cityRequest "Oslo") |}
  ∧ weatherTry (fulfilled oslo) = inr oslo
  ∧ sameCoords (data (app refreshing) ≫= coord) (coord oslo) = true
  ∧ ∃ w', step demoEnv refreshing (WeatherSettled 2 (fulfilled oslo)) = Some w'
      ∧ data (app w') = Some oslo
      ∧ net w' = net refreshing
      ∧ forecastSide (app w') = forecastSide (app refreshing).
Proof.
  assert (Hp : pending refreshing 2
               = Some {| endpoint := OpenWeather;
                         params := weatherParams (lit "demo-key") metric
                                     (cityRequest "Oslo") |})
    by (by vm_compute).
  assert (Hc : sameCoords (data (app refreshing) ≫= coord) (coord oslo) = true)
    by (by vm_compute).
  split; [exact refreshing_reachable |]. split; [exact Hp |].
  split; [reflexivity |]. split; [exact Hc |].
  destruct (weather_success_cascade demoEnv refreshing 2 _ (fulfilled oslo) oslo
              refreshing_reachable Hp eq_refl eq_refl)
    as (w' & Hs & Hd & _ & _ & Hsame & _).
  destruct (Hsame Hc) as [Hn Hf].
  exists w'. repeat split; assumption.
Defined.

Lemma loading_has_request_witness :
  reachable demoEnv searching
  ∧ loading (app searching) = true
  ∧ ∃ id call, pending searching id = Some call ∧ endpoint call = OpenWeather.
Proof.
  assert (Hl : loading (app searching) = true) by (by vm_compute).
  split; [exact searching_reachable |]. split; [exact Hl |].
  destruct (loading_has_request demoEnv searching searching_reachable) as [H _].
  exact (H Hl).
Defined.

Lemma geolocation_flow_witness :
  reachable usEnv (mount usEnv)
  ∧ navigator usEnv = Some {| language := lit "en-US"; geolocation := true |}
  ∧ ∃ w', step usEnv (mount usEnv) UseLocation = Some w'
      ∧ app w' = app (mount usEnv)
      ∧ geo w' = geo (mount usEnv) ++ [units (app (mount usEnv))].
Proof.
  split; [constructor |]. split; [reflexivity |].
  destruct (geolocation_flow usEnv (mount usEnv) (reachable_mount usEnv))
    as (_ & H & _).
  destruct (H {| language := lit "en-US"; geolocation := true |} eq_refl eq_refl)
    as (w' & Hs & Ha & _ & Hg & _).
  exists w'. repeat split; assumption.
Defined.

Lemma position_keeps_click_units_witness :
  reachable usEnv (mount usEnv)
  ∧ navigator usEnv = Some {| language := lit "en-US"; geolocation := true |}
  ∧ apiKey usEnv = Some (lit "demo-key")
  ∧ ∃ w1 w2 w3,
      step usEnv (mount usEnv) UseLocation = Some w1
      ∧ step usEnv w1 ToggleUnits = Some w2
      ∧ step usEnv w2
          (Position (length (geo (mount usEnv))) (fst somewhere) (snd somewhere))
        = Some w3
      ∧ units (app w3) ≠ units (app (mount usEnv))
      ∧ lastRequest (app w3)
        = Some (coordsRequest (fst somewhere) (snd somewhere)).
Proof.
  split; [constructor |]. split; [reflexivity |]. split; [reflexivity |].
  destruct (position_keeps_click_units usEnv (mount usEnv)
              {| language := lit "en-US"; geolocation := true |} (lit "demo-key")
              (fst somewhere) (snd somewhere)
              (reachable_mount usEnv) eq_refl eq_refl eq_refl eq_refl)
    as (w1 & w2 & w3 & H1 & H2 & H3 & _ & Hu & Hl).
  exists w1, w2, w3. repeat split; assumption.
Defined.

Lemma memory_changes_on_location_only_witness :
  step demoEnv typed Submit = Some searching
  ∧ lastRequest (app typed) = None
  ∧ lastRequest (app searching) = Some (cityRequest "Oslo").
Proof.
  assert (Hs : step demoEnv typed Submit = Some searching) by (by vm_compute).
  assert (Hn : lastRequest (app typed) = None) by (by vm_compute).
  split; [exact Hs |]. split; [exact Hn |].
  destruct (memory_changes_on_location_only demoEnv typed Submit searching Hs)
    as [[E | [(_ & _ & _ & E) | (i & la & lo & D & _)]] _].
  - rewrite E, Hn. by vm_compute.
  - rewrite E. by vm_compute.
  - discriminate D.
Defined.

Lemma toggle_before_first_request_witness :
  reachable demoEnv typed
  ∧ lastRequest (app typed) = None
  ∧ ∃ w', step demoEnv typed ToggleUnits = Some w'
      ∧ units (app w') ≠ units (app typed)
      ∧ net w' = [].
Proof.
  assert (Hn : lastRequest (app typed) = None) by (by vm_compute).
  split; [exact typed_reachable |]. split; [exact Hn |].
  destruct (toggle_before_first_request demoEnv typed typed_reachable Hn)
    as (_ & _ & _ & w' & Hs & Hu & Hnet & _).
  exists w'. repeat split; assumption.
Defined.

Lemma search_ignores_padding_witness :
  Forall (λ c, isWhiteSpace c = true) [32%N; 9%N]
  ∧ Forall (λ c, isWhiteSpace c = true) [0xA0%N]
  ∧ net (onSubmit demoEnv
           (upd (setQuery ([32%N; 9%N] ++ lit "Oslo" ++ [0xA0%N])) (mount demoEnv)))
    = net (onSubmit demoEnv (upd (setQuery (lit "Oslo")) (mount demoEnv))).
Proof.
  assert (H1 : Forall (λ c, isWhiteSpace c = true) [32%N; 9%N])
    by (repeat constructor).
  assert (H2 : Forall (λ c, isWhiteSpace c = true) [0xA0%N])
    by (repeat constructor).
  split; [exact H1 |]. split; [exact H2 |].
  destruct (search_ignores_padding demoEnv (mount demoEnv) [32%N; 9%N] (lit "Oslo")
              [0xA0%N] H1 H2) as (H & _).
  exact H.
Defined.

Lemma forecast_last_settled_wins_witness :
  reachable demoEnv racing
  ∧ pending racing 3
    = Some {| endpoint := OpenMeteo;
              params := forecastParams metric (5991 # 100) (1075 # 100) |}
  ∧ pending racing 2
    = Some {| endpoint := OpenMeteo;
              params := forecastParams metric (4189 # 100) (1248 # 100) |}
  ∧ ∃ w1 w2,
      step demoEnv racing (ForecastSettled 3 (inl NonError)) = Some w1
      ∧ step demoEnv w1 (ForecastSettled 2 week) = Some w2
      ∧ weekly (app w2) = storedForecast week
      ∧ data (app w2) = data (app racing).
Proof.
  assert (H3 : pending racing 3
               = Some {| endpoint := OpenMeteo;
                         params := forecastParams metric (5991 # 100) (1075 # 100) |})
    by (by vm_compute).
  assert (H2 : pending racing 2
               = Some {| endpoint := OpenMeteo;
                         params := forecastParams metric (4189 # 100) (1248 # 100) |})
    by (by vm_compute).
  split; [exact racing_reachable |]. split; [exact H3 |]. split; [exact H2 |].
  destruct (forecast_last_settled_wins demoEnv racing 3 2 _ _ (inl NonError) week
              racing_reachable H3 eq_refl H2 eq_refl ltac:(discriminate))
    as (w1 & w2 & Hs1 & Hs2 & Hw & _ & _ & Hd & _).
  exists w1, w2. repeat split; assumption.
Defined.

Lemma events_and_requests_witness :
  reachable demoEnv typed
  ∧ step demoEnv typed Submit = Some searching
  ∧ forecastCalls searching = forecastCalls typed.
Proof.
  assert (Hs : step demoEnv typed Submit = Some searching) by (by vm_compute).
  split; [exact typed_reachable |]. split; [exact Hs |].
  destruct (events_and_requests demoEnv typed Submit searching typed_reachable Hs)
    as [_ [E | [_ [D | (id & r & D)]]]].
  - exact E.
  - discriminate D.
  - discriminate D.
Defined.

Lemma loading_until_response_witness :
  reachable demoEnv searching
  ∧ step demoEnv searching ToggleUnits
    = Some (render demoEnv (toggleUnits searching))
  ∧ loading (app searching) = true
  ∧ loading (app (render demoEnv (toggleUnits searching))) = true.
Proof.
  assert (Hl : loading (app searching) = true) by (by vm_compute).
  split; [exact searching_reachable |]. split; [reflexivity |]. split; [exact Hl |].
  destruct (loading_until_response demoEnv searching ToggleUnits _
              searching_reachable eq_refl) as (H & _).
  destruct (H Hl) as [E | (id & r & D)]; [exact E | discriminate D].
Defined.
